(** * MulticopterSim: the vehicle pawn and the big-quad frame constants

    A shallow embedding of [Source/MulticopterSim/VehiclePawn.cpp]
    (class [AVehiclePawn]) and of the [BigQuadDynamics] class with its factory
    [MultirotorDynamics::create].

    - C++ [float] is IEEE-754 binary32, [double] is binary64.
    - Function-local [static] variables are fields of a process-wide record
      ([Globals]) that every pawn instance shares.
    - Member functions take the object ([self]) and return the updated object
      in a state-and-error monad over [Globals]; dereferencing a pointer that
      does not point to a live worker, or indexing an array outside its
      bounds, is undefined behaviour and is the error of that monad.
    - Calls on host-engine actuators and on threaded workers are recorded, in
      order, in a trace of events. *)

From Stdlib Require Import ZArith String Ascii List Bool Lia.
From Stdlib Require Import Floats.SpecFloat Floats.PrimFloat.
From Stdlib Require DecimalString DecimalNat.
From stdpp Require Import base option list gmap.
Import ListNotations.

Set Warnings "-inexact-float,-clear-no-such-hyp".

Local Open Scope Z_scope.

(* ===================================================================== *)
(** ** Numbers *)
(* ===================================================================== *)

(** C++ [float]. *)
Module F32.
Definition prec : Z := 24.
Definition emax : Z := 128.
Definition t : Type := spec_float.

Definition zero : t := S754_zero false.
(** Conversion of an integer to [float] (round to nearest even). *)
Definition of_Z (n : Z) : t := binary_normalize prec emax n 0 false.
Definition add (x y : t) : t := SFadd prec emax x y.
Definition sub (x y : t) : t := SFsub prec emax x y.
Definition mul (x y : t) : t := SFmul prec emax x y.
Definition div (x y : t) : t := SFdiv prec emax x y.
(** [x > y]; false when either side is NaN. *)
Definition gtb (x y : t) : bool := SFltb y x.
End F32.

(** [uint64_t] arithmetic wraps around. *)
Definition wrap64 (n : Z) : Z := n mod 2 ^ 64.

(* ===================================================================== *)
(** ** Host-engine strings: [FString::Contains] *)
(* ===================================================================== *)

Module FString.

(** [ESearchCase::Type]. *)
Inductive ESearchCase := CaseSensitive | IgnoreCase.

(** [TChar::ToUpper] on the ASCII range. *)
Definition ToUpper (c : ascii) : ascii :=
  let n := nat_of_ascii c in
  if ((97 <=? n) && (n <=? 122))%nat then ascii_of_nat (n - 32) else c.

Definition char_eqb (sc : ESearchCase) (a b : ascii) : bool :=
  match sc with
  | CaseSensitive => Ascii.eqb a b
  | IgnoreCase => Ascii.eqb (ToUpper a) (ToUpper b)
  end.

(** Does [s] start with [sub]? *)
Fixpoint StartsWith (sc : ESearchCase) (sub s : string) : bool :=
  match sub, s with
  | EmptyString, _ => true
  | String _ _, EmptyString => false
  | String a sub', String b s' => char_eqb sc a b && StartsWith sc sub' s'
  end.

(** [Find(SubStr, SearchCase) != INDEX_NONE], scanning from the start. *)
Fixpoint Find (sc : ESearchCase) (sub s : string) : bool :=
  StartsWith sc sub s ||
  match s with
  | EmptyString => false
  | String _ s' => Find sc sub s'
  end.

(** [FString::Contains(SubStr, SearchCase = ESearchCase::IgnoreCase,
    SearchDir = ESearchDir::FromStart)]: the engine's declaration gives the
    search case a default, and that default ignores case. *)
Definition Contains_with (sub : string) (sc : ESearchCase) (s : string) : bool :=
  Find sc sub s.

Definition Contains (s sub : string) : bool := Contains_with sub IgnoreCase s.

(** What a comparison looks at: the character itself, or its upper case. *)
Definition fold_char (sc : ESearchCase) (c : ascii) : ascii :=
  match sc with
  | CaseSensitive => c
  | IgnoreCase => ToUpper c
  end.

Fixpoint fold_case (sc : ESearchCase) (s : string) : string :=
  match s with
  | EmptyString => EmptyString
  | String c s' => String (fold_char sc c) (fold_case sc s')
  end.

(** Some substring of [s] equals [sub] under the search case [sc]. *)
Definition occurs_under (sc : ESearchCase) (sub s : string) : Prop :=
  exists pre mid post,
    s = (pre ++ mid ++ post)%string /\ fold_case sc mid = fold_case sc sub.

(** [sub] occurs in [s] as a substring, character for character. *)
Definition occurs (sub s : string) : Prop :=
  exists pre post, s = (pre ++ sub ++ post)%string.

(** Some substring of [s] equals [sub] up to ASCII letter case. *)
Definition occurs_nocase (sub s : string) : Prop :=
  occurs_under IgnoreCase sub s.

End FString.

(* ===================================================================== *)
(** ** Host-engine value types *)
(* ===================================================================== *)

Record FVector := mkFVector { X : F32.t; Y : F32.t; Zc : F32.t }.

(** [FRotator(InPitch, InYaw, InRoll)]. *)
Record FRotator := mkFRotator { Pitch : F32.t; Yaw : F32.t; Roll : F32.t }.

(** [frame] as the pawn uses it: [frame.nmotors] and [frame.motordirs[j]].
    Its declaration ([plugin/vehicle.h]) is not among the sources; the motor
    count is the bound of [uint8_t] loops, the directions are small signed
    integers. *)
Record Frame := mkFrame { nmotors : nat; motordirs : list Z }.

(** [params] is only forwarded to the flight manager; it stays opaque. *)
Record Params := mkParams { params_tag : nat }.

(** A [UTextureRenderTarget2D*] asset reference. *)
Record RenderTarget := mkRenderTarget { target_path : string }.

(* ===================================================================== *)
(** ** Threaded workers, events, process state *)
(* ===================================================================== *)

(** A [FThreadedWorker*] as stored in the pawn. *)
Inductive WorkerPtr :=
| nullptr
| ptr (id : nat).

(** What a live worker was created with. *)
Inductive Worker :=
| FlightManager (f : Frame) (pr : Params) (startLocation : FVector) (startRotation : FRotator)
| VideoManager (camera1 camera2 : RenderTarget).

Inductive Event :=
| EvAudioPlay
| EvError (msg : string)
| EvCreate (id : nat) (w : Worker)
| EvStop (h : WorkerPtr)
| EvGetKinematics (id : nat)
| EvGetGimbal (id : nat)
| EvGetMessage (id : nat)
| EvGrabCurrentImage (id : nat)
| EvAudioParameter (name : string) (value : F32.t)
| EvPropRotation (j : nat) (r : FRotator)
| EvDebug
| EvSuperBeginPlay
| EvSuperEndPlay
| EvSuperTick (DeltaSeconds : F32.t).

Record Globals := mkGlobals {
  count : Z;                     (* static uint64_t count     (Tick) *)
  rotation : F32.t;              (* static float rotation     (addAnimationEffects) *)
  workers : gmap nat Worker;     (* the threaded workers alive in the process *)
  next_worker : nat;             (* where the next allocation lands *)
  trace : list Event             (* what happened so far, oldest first *)
}.

(** Statics are zero-initialised; nothing is running. *)
Definition initial_globals : Globals :=
  mkGlobals 0 F32.zero ∅ 0 [].

(* ===================================================================== *)
(** ** State-and-error monad *)
(* ===================================================================== *)

Definition M (A : Type) : Type := Globals -> option (A * Globals).

Definition ret {A} (a : A) : M A := fun g => Some (a, g).

Definition bind {A B} (m : M A) (k : A -> M B) : M B :=
  fun g => match m g with
           | Some (a, g') => k a g'
           | None => None
           end.

(** Undefined behaviour. *)
Definition undefined {A} : M A := fun _ => None.

Declare Scope cpp_scope.
Delimit Scope cpp_scope with cpp.
Notation "'let*' x ':=' m 'in' k" := (bind m (fun x => k))
  (at level 10, x name, m at level 100, k at level 200) : cpp_scope.
Notation "m ';;' k" := (bind m (fun _ => k))
  (at level 100, k at level 200, right associativity) : cpp_scope.
Local Open Scope cpp_scope.

Definition emit (e : Event) : M unit :=
  fun g => Some (tt, mkGlobals (count g) (rotation g) (workers g) (next_worker g) (trace g ++ [e])).

Definition get_workers : M (gmap nat Worker) := fun g => Some (workers g, g).

Definition set_workers (ws : gmap nat Worker) : M unit :=
  fun g => Some (tt, mkGlobals (count g) (rotation g) ws (next_worker g) (trace g)).

Definition get_rotation : M F32.t := fun g => Some (rotation g, g).

Definition set_rotation (r : F32.t) : M unit :=
  fun g => Some (tt, mkGlobals (count g) r (workers g) (next_worker g) (trace g)).

(** [count++]: yields the old value, stores the successor modulo 2^64. *)
Definition count_post_increment : M Z :=
  fun g => Some (count g, mkGlobals (wrap64 (count g + 1)) (rotation g) (workers g) (next_worker g) (trace g)).

(** [new]: a fresh worker object. *)
Definition allocate (w : Worker) : M nat :=
  fun g => let id := next_worker g in
           Some (id, mkGlobals (count g) (rotation g) (<[id := w]> (workers g)) (S id) (trace g)).

(** [h->...]: the pointer must point to a live worker. *)
Definition deref (h : WorkerPtr) : M nat :=
  match h with
  | nullptr => undefined
  | ptr id => let* ws := get_workers in
              match ws !! id with
              | Some _ => ret id
              | None => undefined
              end
  end.

(* ===================================================================== *)
(** ** The worker API the pawn calls *)
(* ===================================================================== *)

(** What the flight manager hands back on one read: location, rotation and
    motor values (the three out-parameters) and the crashed flag. *)
Record Kinematics := mkKinematics {
  k_location : FVector;
  k_rotation : FRotator;
  k_motorvals : list F32.t;
  k_crashed : bool
}.

(** What the workers would answer during one consumer tick. *)
Record Feed := mkFeed {
  feed_kinematics : Kinematics;
  feed_gimbal : F32.t * F32.t        (* roll, pitch *)
}.

Module FThreadedWorker.

(** Modelled from the spec: [FThreadedWorker::stopThreadedWorker], whose
    source file is missing. "stop(handle) -> null-handle signals the context
    to terminate, joins/waits for it to fully exit, releases its owned
    resources, and returns a null handle"; stopping what is not running is
    a safe no-op. *)
Definition release (h : WorkerPtr) (ws : gmap nat Worker) : gmap nat Worker :=
  match h with
  | ptr id => delete id ws
  | nullptr => ws
  end.

Definition stopThreadedWorker (h : WorkerPtr) : M WorkerPtr :=
  emit (EvStop h);;
  let* ws := get_workers in
  set_workers (release h ws);;
  ret nullptr.

End FThreadedWorker.

Module FFlightManager.

(** Modelled from the spec: [FFlightManager::create], whose source file is
    missing. "create(frame, params, startLocation, startRotation) -> handle:
    allocates the worker, its owned Dynamics Model, initializes state to the
    given ground-truth pose, and launches its dedicated execution context." *)
Definition create (f : Frame) (pr : Params) (loc : FVector) (rot : FRotator) : M WorkerPtr :=
  let w := FlightManager f pr loc rot in
  let* id := allocate w in
  emit (EvCreate id w);;
  ret (ptr id).

(** Modelled from the spec: [FFlightManager::getKinematics], whose source
    file is missing. "returns the most recent published snapshot's fields and
    whether the underlying model is in the crashed state"; the snapshot is the
    one the tick's feed carries. *)
Definition getKinematics (h : WorkerPtr) (k : Kinematics) : M Kinematics :=
  let* id := deref h in
  emit (EvGetKinematics id);;
  ret k.

(** Modelled from the spec: [FFlightManager::getGimbal], whose source file
    is missing. "returns the latest commanded/derived gimbal angles". *)
Definition getGimbal (h : WorkerPtr) (rp : F32.t * F32.t) : M (F32.t * F32.t) :=
  let* id := deref h in
  emit (EvGetGimbal id);;
  ret rp.

(** [getMessage] of the worker base class: the text for the on-screen display. *)
Definition getMessage (h : WorkerPtr) : M unit :=
  let* id := deref h in
  emit (EvGetMessage id).

End FFlightManager.

Module FVideoManager.

(** Modelled from the spec: [FVideoManager::create], whose source file is
    missing; the generic "create(...) -> handle starts the dedicated execution
    context and returns an opaque handle". *)
Definition create (camera1 camera2 : RenderTarget) : M WorkerPtr :=
  let w := VideoManager camera1 camera2 in
  let* id := allocate w in
  emit (EvCreate id w);;
  ret (ptr id).

Definition grabCurrentImage (h : WorkerPtr) : M unit :=
  let* id := deref h in
  emit (EvGrabCurrentImage id).

End FVideoManager.

(** [error(...)] and [debug(...)] of [Debug.hpp]: messages for the host. *)
Definition error (msg : string) : M unit := emit (EvError msg).
Definition debug : M unit := emit EvDebug.

(* ===================================================================== *)
(** ** AVehiclePawn *)
(* ===================================================================== *)

(** A [UStaticMeshComponent*] that is not null: where it lives and what
    [GetName] answers. *)
Record Component := mkComponent { component_address : nat; GetName : string }.

(** The members the operations below touch. [frame] and [params] are the
    vehicle configuration the pawn names ([plugin/vehicle.h]); [_motorvals] is
    the buffer allocated with [new float[frame.nmotors]]; [_propMeshes] is the
    array of propeller mesh pointers, a slot being [None] while no component
    has been stored in it; the last three are host-engine state of the actor
    and of its spring arm. *)
Record Pawn := mkPawn {
  frame : Frame;
  params : Params;
  _camera1RenderTarget : RenderTarget;
  _camera2RenderTarget : RenderTarget;
  _mapSelected : bool;
  _startLocation : FVector;
  _startRotation : FRotator;
  _flightManager : WorkerPtr;
  _videoManager : WorkerPtr;
  _motorvals : list F32.t;
  _propMeshes : list (option Component);
  actorLocation : FVector;          (* GetActorLocation / SetActorLocation *)
  actorRotation : FRotator;         (* GetActorRotation / SetActorRotation *)
  fpvSpringArmRotation : FRotator   (* _fpvSpringArm: GetComponentRotation / SetWorldRotation *)
}.

Module AVehiclePawn.

Definition set_mapSelected (b : bool) (p : Pawn) : Pawn :=
  mkPawn (frame p) (params p) (_camera1RenderTarget p) (_camera2RenderTarget p)
    b (_startLocation p) (_startRotation p) (_flightManager p) (_videoManager p)
    (_motorvals p) (_propMeshes p) (actorLocation p) (actorRotation p) (fpvSpringArmRotation p).

Definition set_start (loc : FVector) (rot : FRotator) (p : Pawn) : Pawn :=
  mkPawn (frame p) (params p) (_camera1RenderTarget p) (_camera2RenderTarget p)
    (_mapSelected p) loc rot (_flightManager p) (_videoManager p)
    (_motorvals p) (_propMeshes p) (actorLocation p) (actorRotation p) (fpvSpringArmRotation p).

Definition set_flightManager (h : WorkerPtr) (p : Pawn) : Pawn :=
  mkPawn (frame p) (params p) (_camera1RenderTarget p) (_camera2RenderTarget p)
    (_mapSelected p) (_startLocation p) (_startRotation p) h (_videoManager p)
    (_motorvals p) (_propMeshes p) (actorLocation p) (actorRotation p) (fpvSpringArmRotation p).

Definition set_videoManager (h : WorkerPtr) (p : Pawn) : Pawn :=
  mkPawn (frame p) (params p) (_camera1RenderTarget p) (_camera2RenderTarget p)
    (_mapSelected p) (_startLocation p) (_startRotation p) (_flightManager p) h
    (_motorvals p) (_propMeshes p) (actorLocation p) (actorRotation p) (fpvSpringArmRotation p).

Definition set_motorvals (vs : list F32.t) (p : Pawn) : Pawn :=
  mkPawn (frame p) (params p) (_camera1RenderTarget p) (_camera2RenderTarget p)
    (_mapSelected p) (_startLocation p) (_startRotation p) (_flightManager p) (_videoManager p)
    vs (_propMeshes p) (actorLocation p) (actorRotation p) (fpvSpringArmRotation p).

Definition SetActorLocation (loc : FVector) (p : Pawn) : Pawn :=
  mkPawn (frame p) (params p) (_camera1RenderTarget p) (_camera2RenderTarget p)
    (_mapSelected p) (_startLocation p) (_startRotation p) (_flightManager p) (_videoManager p)
    (_motorvals p) (_propMeshes p) loc (actorRotation p) (fpvSpringArmRotation p).

Definition SetActorRotation (rot : FRotator) (p : Pawn) : Pawn :=
  mkPawn (frame p) (params p) (_camera1RenderTarget p) (_camera2RenderTarget p)
    (_mapSelected p) (_startLocation p) (_startRotation p) (_flightManager p) (_videoManager p)
    (_motorvals p) (_propMeshes p) (actorLocation p) rot (fpvSpringArmRotation p).

Definition SetWorldRotation (rot : FRotator) (p : Pawn) : Pawn :=
  mkPawn (frame p) (params p) (_camera1RenderTarget p) (_camera2RenderTarget p)
    (_mapSelected p) (_startLocation p) (_startRotation p) (_flightManager p) (_videoManager p)
    (_motorvals p) (_propMeshes p) (actorLocation p) (actorRotation p) rot.

(** [startThreadedWorkers]. *)
Definition startThreadedWorkers (self : Pawn) : M Pawn :=
  let* fm := FFlightManager.create (frame self) (params self)
               (_startLocation self) (_startRotation self) in
  let self := set_flightManager fm self in
  let* vm := FVideoManager.create (_camera1RenderTarget self) (_camera2RenderTarget self) in
  ret (set_videoManager vm self).

(** [stopThreadedWorkers]. *)
Definition stopThreadedWorkers (self : Pawn) : M Pawn :=
  let* fm := FThreadedWorker.stopThreadedWorker (_flightManager self) in
  let self := set_flightManager fm self in
  let* vm := FThreadedWorker.stopThreadedWorker (_videoManager self) in
  ret (set_videoManager vm self).

(** [getKinematics]: one read of the flight manager; the motor values land
    in [_motorvals]; a crash restarts both workers; the pose read is applied
    to the actor either way. *)
Definition getKinematics (k : Kinematics) (self : Pawn) : M Pawn :=
  let* r := FFlightManager.getKinematics (_flightManager self) k in
  let location := k_location r in
  let rotation := k_rotation r in
  let self := set_motorvals (k_motorvals r) self in
  let crashed := k_crashed r in
  let* self :=
    (if crashed then
       let* self := stopThreadedWorkers self in
       startThreadedWorkers self
     else ret self) in
  let self := SetActorLocation location self in
  let self := SetActorRotation rotation self in
  ret self.

(** [setAudioPitchAndVolume]. *)
Definition setAudioPitchAndVolume (value : F32.t) : M unit :=
  emit (EvAudioParameter "pitch" value);;
  emit (EvAudioParameter "volume" value).

(** [for (uint8_t j=0; j<frame.nmotors; ++j) motormean += _motorvals[j];]
    with [n] iterations left to run from index [j]. *)
Fixpoint sum_motorvals (vals : list F32.t) (j n : nat) (motormean : F32.t) : option F32.t :=
  match n with
  | O => Some motormean
  | S n' =>
      match vals !! j with
      | Some v => sum_motorvals vals (S j) n' (F32.add motormean v)
      | None => None
      end
  end.

(** [for (uint8_t j=0; j<frame.nmotors; ++j)
      _propMeshes[j]->SetRelativeRotation(FRotator(0, rotation * frame.motordirs[j]*100, 0));]
    with [n] iterations left to run from index [j]. The call goes through the
    pointer in slot [j]: a slot outside the array or one that holds no
    component is undefined, and so is a direction outside the table. *)
Fixpoint rotate_props (propMeshes : list (option Component)) (dirs : list Z) (rot : F32.t)
    (j n : nat) : M unit :=
  match n with
  | O => ret tt
  | S n' =>
      match propMeshes !! j, dirs !! j with
      | Some (Some _), Some dir =>
          emit (EvPropRotation j
                  (mkFRotator F32.zero
                     (F32.mul (F32.mul rot (F32.of_Z dir)) (F32.of_Z 100))
                     F32.zero));;
          rotate_props propMeshes dirs rot (S j) n'
      | _, _ => undefined
      end
  end.

(** [addAnimationEffects]. *)
Definition addAnimationEffects (self : Pawn) : M unit :=
  match sum_motorvals (_motorvals self) 0 (nmotors (frame self)) F32.zero with
  | None => undefined
  | Some motormean =>
      let motormean := F32.div motormean (F32.of_Z (Z.of_nat (nmotors (frame self)))) in
      setAudioPitchAndVolume motormean;;
      if F32.gtb motormean F32.zero then
        let* rot := get_rotation in
        rotate_props (_propMeshes self) (motordirs (frame self)) rot 0 (nmotors (frame self));;
        set_rotation (F32.add rot (F32.of_Z 1))
      else ret tt
  end.

(** [setGimbal]. *)
Definition setGimbal (rp : F32.t * F32.t) (self : Pawn) : M Pawn :=
  let* got := FFlightManager.getGimbal (_flightManager self) rp in
  let roll := fst got in
  let pitch := snd got in
  let rot := fpvSpringArmRotation self in
  let rot := mkFRotator (F32.sub (Pitch rot) pitch) (Yaw rot) (F32.add (Roll rot) roll) in
  ret (SetWorldRotation rot self).

(** [BeginPlay]; [mapName] is [GetWorld()->GetMapName()]. *)
Definition BeginPlay (mapName : string) (self : Pawn) : M Pawn :=
  let self := set_mapSelected (negb (FString.Contains mapName "Untitled")) self in
  let* self :=
    (if _mapSelected self then
       emit EvAudioPlay;;
       let self := set_start (actorLocation self) (actorRotation self) self in
       startThreadedWorkers self
     else
       error "NO MAP SELECTED";;
       ret self) in
  emit EvSuperBeginPlay;;
  ret self.

(** [EndPlay]; the reason argument only travels on to the base class. *)
Definition EndPlay (self : Pawn) : M Pawn :=
  let* self :=
    (if _mapSelected self then stopThreadedWorkers self else ret self) in
  emit EvSuperEndPlay;;
  ret self.

(** [_mapSelected && count++>10]: the right operand, and with it the
    increment, is evaluated only when the left one holds. *)
Definition gate (self : Pawn) : M bool :=
  if _mapSelected self then
    let* c := count_post_increment in
    ret (10 <? c)
  else ret false.

(** [Tick]. *)
Definition Tick (DeltaSeconds : F32.t) (feed : Feed) (self : Pawn) : M Pawn :=
  let* open := gate self in
  let* self :=
    (if open then
       let* self := getKinematics (feed_kinematics feed) self in
       addAnimationEffects self;;
       let* self := setGimbal (feed_gimbal feed) self in
       FVideoManager.grabCurrentImage (_videoManager self);;
       FFlightManager.getMessage (_flightManager self);;
       debug;;
       ret self
     else ret self) in
  emit (EvSuperTick DeltaSeconds);;
  ret self.

End AVehiclePawn.

(* ===================================================================== *)
(** ** Executions: what the host engine calls on pawn instances *)
(* ===================================================================== *)

Inductive Op :=
| OpBeginPlay (mapName : string)
| OpTick (DeltaSeconds : F32.t) (feed : Feed)
| OpEndPlay.

Definition step (o : Op) (self : Pawn) : M Pawn :=
  match o with
  | OpBeginPlay mapName => AVehiclePawn.BeginPlay mapName self
  | OpTick dt feed => AVehiclePawn.Tick dt feed self
  | OpEndPlay => AVehiclePawn.EndPlay self
  end.

(** One pawn, a sequence of engine calls. *)
Fixpoint run (ops : list Op) (self : Pawn) : M Pawn :=
  match ops with
  | [] => ret self
  | o :: ops' => let* self := step o self in run ops' self
  end.

(** Several pawn instances in one process: a call names its instance. *)
Definition step_at (i : nat) (o : Op) (scene : list Pawn) : M (list Pawn) :=
  match scene !! i with
  | Some self => let* self := step o self in ret (<[i := self]> scene)
  | None => undefined
  end.

Fixpoint run_scene (calls : list (nat * Op)) (scene : list Pawn) : M (list Pawn) :=
  match calls with
  | [] => ret scene
  | (i, o) :: calls' => let* scene := step_at i o scene in run_scene calls' scene
  end.

Definition is_BeginPlay (o : Op) : bool :=
  match o with OpBeginPlay _ => true | _ => false end.

Definition is_Tick (o : Op) : bool :=
  match o with OpTick _ _ => true | _ => false end.

(** How many of the calls are ticks. *)
Definition ticks (calls : list (nat * Op)) : nat :=
  length (List.filter (fun c => is_Tick (snd c)) calls).

(** The events an action added: the trace after it, without the trace before. *)
Definition events_since (g g' : Globals) : list Event :=
  drop (length (trace g)) (trace g').

(** A kinematics read. *)
Definition is_read (e : Event) : bool :=
  match e with EvGetKinematics _ => true | _ => false end.

(** Kinematics read, animation (audio, propellers), gimbal or video access. *)
Definition is_access (e : Event) : bool :=
  match e with
  | EvGetKinematics _ | EvAudioParameter _ _ | EvPropRotation _ _
  | EvGetGimbal _ | EvGrabCurrentImage _ => true
  | _ => false
  end.

(** Audio and propeller effects. *)
Definition is_animation (e : Event) : bool :=
  match e with
  | EvAudioParameter _ _ | EvPropRotation _ _ => true
  | _ => false
  end.

Definition is_stop (e : Event) : bool :=
  match e with EvStop _ => true | _ => false end.

Definition is_create (e : Event) : bool :=
  match e with EvCreate _ _ => true | _ => false end.

(** The base-class call each engine call ends with. *)
Definition super_event (o : Op) : Event :=
  match o with
  | OpBeginPlay _ => EvSuperBeginPlay
  | OpTick dt _ => EvSuperTick dt
  | OpEndPlay => EvSuperEndPlay
  end.

(** Every live worker sits below the allocation mark. *)
Definition wf (g : Globals) : Prop :=
  forall id, is_Some (workers g !! id) -> (id < next_worker g)%nat.

(** Replaying a trace against the set of live workers: every stop must hit
    the null pointer or a worker that is alive at that moment. *)
Fixpoint stops_ok (live : gset nat) (evs : list Event) : bool :=
  match evs with
  | [] => true
  | EvCreate id _ :: evs' => stops_ok ({[id]} ∪ live) evs'
  | EvStop nullptr :: evs' => stops_ok live evs'
  | EvStop (ptr id) :: evs' => bool_decide (id ∈ live) && stops_ok (live ∖ {[id]}) evs'
  | _ :: evs' => stops_ok live evs'
  end.

(** The live set after the trace. *)
Fixpoint live_after (live : gset nat) (evs : list Event) : gset nat :=
  match evs with
  | [] => live
  | EvCreate id _ :: evs' => live_after ({[id]} ∪ live) evs'
  | EvStop (ptr id) :: evs' => live_after (live ∖ {[id]}) evs'
  | _ :: evs' => live_after live evs'
  end.

(** The arithmetic mean as the spec words it: the sum of the values over their
    number, in [float] arithmetic. *)
Definition arithmetic_mean (vals : list F32.t) : F32.t :=
  F32.div (foldl F32.add F32.zero vals) (F32.of_Z (Z.of_nat (length vals))).

(** The propeller rotations of one tick: prop [j] turns to yaw
    [rotation * motordirs[j] * 100]. *)
Definition prop_rotations (dirs : list Z) (rot : F32.t) : list Event :=
  imap (fun j dir =>
          EvPropRotation j
            (mkFRotator F32.zero (F32.mul (F32.mul rot (F32.of_Z dir)) (F32.of_Z 100)) F32.zero))
       dirs.

(** Every one of the first [nmotors] slots of [_propMeshes] holds a
    component. *)
Definition props_bound (p : Pawn) : bool :=
  forallb (fun j => match _propMeshes p !! j with
                    | Some (Some _) => true
                    | _ => false
                    end)
          (seq 0 (nmotors (frame p))).

(** The mean of the frame's [nmotors] motor values. *)
Definition motormean (f : Frame) (vals : list F32.t) : F32.t :=
  arithmetic_mean (take (nmotors f) vals).

(** The audio and propeller effects of one tick, from the motor values
    [vals]: pitch and volume get the mean; the props turn only when the mean
    is strictly positive. *)
Definition animation_events (f : Frame) (vals : list F32.t) (rot : F32.t) : list Event :=
  [EvAudioParameter "pitch" (motormean f vals);
   EvAudioParameter "volume" (motormean f vals)] ++
  (if F32.gtb (motormean f vals) F32.zero
   then prop_rotations (take (nmotors f) (motordirs f)) rot
   else []).

(** The static [rotation] after the effects of one tick. *)
Definition next_rotation (f : Frame) (vals : list F32.t) (rot : F32.t) : F32.t :=
  if F32.gtb (motormean f vals) F32.zero then F32.add rot (F32.of_Z 1) else rot.

(* ===================================================================== *)
(** ** BigQuadDynamics and the factory MultirotorDynamics::create *)
(* ===================================================================== *)

Module MultirotorDynamics.

(** The virtual accessors of the class hierarchy: the nine constants that
    [BigQuadDynamics] overrides, and the accessor of the motor-direction table,
    which [BigQuadDynamics] does not mention. *)
Inductive accessor := b | d | m | l | Ix | Iy | Iz | Jr | maxrpm | motorDirection.

(** [const double], [const unsigned int], or a table of spin directions. *)
Inductive value :=
| Double (x : float)
| Unsigned (n : Z)
| Directions (dirs : list Z).

(** The parameter set of a vehicle frame as the spec lists it. *)
Inductive quantity :=
| ThrustCoefficient
| DragCoefficient
| Mass
| ArmLength
| InertiaX
| InertiaY
| InertiaZ
| RotorInertia
| MaxRotorRPM
| MotorDirectionTable.

(** What each accessor stands for. *)
Definition quantity_of (a : accessor) : quantity :=
  match a with
  | b => ThrustCoefficient
  | d => DragCoefficient
  | m => Mass
  | l => ArmLength
  | Ix => InertiaX
  | Iy => InertiaY
  | Iz => InertiaZ
  | Jr => RotorInertia
  | maxrpm => MaxRotorRPM
  | motorDirection => MotorDirectionTable
  end.

Definition accessors : list accessor :=
  [b; d; m; l; Ix; Iy; Iz; Jr; maxrpm; motorDirection].

Definition quantity_eqb (x y : quantity) : bool :=
  match x, y with
  | ThrustCoefficient, ThrustCoefficient | DragCoefficient, DragCoefficient
  | Mass, Mass | ArmLength, ArmLength | InertiaX, InertiaX | InertiaY, InertiaY
  | InertiaZ, InertiaZ | RotorInertia, RotorInertia | MaxRotorRPM, MaxRotorRPM
  | MotorDirectionTable, MotorDirectionTable => true
  | _, _ => false
  end.

(** The dynamic types the factory produces. *)
Inductive class := BigQuadDynamics.

(** The members a class itself defines with [override]. *)
Definition overrides (c : class) (a : accessor) : option value :=
  match c, a with
  | BigQuadDynamics, b => Some (Double 0.0000530216718361085%float)
  | BigQuadDynamics, d => Some (Double 2.23656692806239E-06%float)
  | BigQuadDynamics, m => Some (Double 16.47%float)
  | BigQuadDynamics, l => Some (Double 0.6%float)
  | BigQuadDynamics, Ix => Some (Double 2%float)
  | BigQuadDynamics, Iy => Some (Double 2%float)
  | BigQuadDynamics, Iz => Some (Double 3%float)
  | BigQuadDynamics, Jr => Some (Double 0.000308013%float)
  | BigQuadDynamics, maxrpm => Some (Unsigned 10000)
  | BigQuadDynamics, motorDirection => None
  end.

(** Modelled from the spec: the overrides of [QuadXAPDynamics], the base
    class of [BigQuadDynamics], whose header [QuadXAPDynamics.hpp] is missing.
    "Each concrete frame subtype supplies the eight physical constants
    (coefficients, mass, geometry, inertias, rotor inertia, max RPM) and the
    motor-direction table", a frame having "motor spin directions (±1 per
    motor)". The constants are written in [BigQuadDynamics]; the table is what
    the base class brings. [dirs] is that table, [rest] whatever else the class
    and its own bases define. *)
Definition QuadXAPDynamics_overrides (dirs : list Z) (rest : accessor -> option value)
    (a : accessor) : option value :=
  match a with
  | motorDirection => Some (Directions dirs)
  | _ => rest a
  end.

(** Objects on the free store: each carries its dynamic type. *)
Record Heap := mkHeap { objects : gmap nat class; next_object : nat }.

(** [MultirotorDynamics::create]: [return new BigQuadDynamics();]. *)
Definition create (h : Heap) : nat * Heap :=
  let p := next_object h in
  (p, mkHeap (<[p := BigQuadDynamics]> (objects h)) (S p)).

(** A virtual call through a [MultirotorDynamics*]: the override of the
    object's dynamic type answers if there is one, otherwise what the class
    inherits; [inherited] stands for the overrides of the base classes. *)
Definition call (inherited : accessor -> option value)
    (h : Heap) (p : nat) (a : accessor) : option value :=
  match objects h !! p with
  | None => None
  | Some c =>
      match overrides c a with
      | Some v => Some v
      | None => inherited a
      end
  end.

(** The object at [p] answers the accessor of quantity [q]. *)
Definition supplies (inherited : accessor -> option value)
    (h : Heap) (p : nat) (q : quantity) : bool :=
  existsb (fun a => quantity_eqb (quantity_of a) q &&
                    match call inherited h p a with Some _ => true | None => false end)
          accessors.

Definition is_positive (v : value) : bool :=
  match v with
  | Double x => PrimFloat.ltb 0%float x
  | Unsigned n => 0 <? n
  | Directions _ => false
  end.

End MultirotorDynamics.

(* ===================================================================== *)
(** ** Invariants of executions *)
(* ===================================================================== *)

(** Neither a stop nor a creation of a worker. *)
Definition is_quiet (e : Event) : bool := negb (is_stop e) && negb (is_create e).

(** A stretch of execution that leaves the counter and the workers alone. *)
Definition quiet (g g' : Globals) : Prop :=
  count g' = count g /\ workers g' = workers g /\ next_worker g' = next_worker g /\
  exists evs, trace g' = trace g ++ evs /\ forallb is_quiet evs = true.

(** The fields no tick and no teardown writes. *)
Definition same_config (p p' : Pawn) : Prop :=
  frame p' = frame p /\ params p' = params p /\
  _camera1RenderTarget p' = _camera1RenderTarget p /\
  _camera2RenderTarget p' = _camera2RenderTarget p /\
  _mapSelected p' = _mapSelected p /\
  _startLocation p' = _startLocation p /\ _startRotation p' = _startRotation p.

(** A stored handle is null or points to a live worker. *)
Definition handle_ok (h : WorkerPtr) (ws : gmap nat Worker) : Prop :=
  match h with
  | nullptr => True
  | ptr id => is_Some (ws !! id)
  end.

(** The two handles never alias one worker. *)
Definition handles_apart (h1 h2 : WorkerPtr) : Prop :=
  match h1, h2 with
  | ptr a, ptr b => a <> b
  | _, _ => True
  end.

(** Once a map is selected the pawn's handles are null or live, and distinct. *)
Definition handles_inv (p : Pawn) (g : Globals) : Prop :=
  wf g /\
  (_mapSelected p = true ->
   handle_ok (_flightManager p) (workers g) /\ handle_ok (_videoManager p) (workers g) /\
   handles_apart (_flightManager p) (_videoManager p)).

(** From [g] to [g'] the trace grew by events whose stops are all in order,
    and the replayed live set is the store's. *)
Definition replays (g g' : Globals) : Prop :=
  exists evs, trace g' = trace g ++ evs /\
    stops_ok (dom (workers g)) evs = true /\
    live_after (dom (workers g)) evs = dom (workers g').

(** Every worker creation among the events is a flight manager seeded with
    the given pose, or a video manager. *)
Definition seeded_with (loc : FVector) (rot : FRotator) (e : Event) : Prop :=
  match e with
  | EvCreate _ (FlightManager _ _ loc' rot') => loc' = loc /\ rot' = rot
  | _ => True
  end.

(* ===================================================================== *)
(** ** Sample values *)
(* ===================================================================== *)

Definition sample_frame : Frame := mkFrame 4 [1; -1; -1; 1].

Definition sample_location : FVector :=
  mkFVector (F32.of_Z 0) (F32.of_Z 0) (F32.of_Z 10).

Definition sample_rotation : FRotator :=
  mkFRotator F32.zero (F32.of_Z 90) F32.zero.

(** A pawn after [PostInitializeComponents] on a blueprint with the four
    prop meshes: no map decision yet, no workers. *)
Definition sample_pawn : Pawn :=
  mkPawn sample_frame (mkParams 0)
    (mkRenderTarget "/Game/Flying/RenderTargets/fpv1CameraTarget")
    (mkRenderTarget "/Game/Flying/RenderTargets/fpv2CameraTarget")
    false (mkFVector F32.zero F32.zero F32.zero) (mkFRotator F32.zero F32.zero F32.zero)
    nullptr nullptr
    [F32.zero; F32.zero; F32.zero; F32.zero]
    [Some (mkComponent 1 "Prop1"); Some (mkComponent 2 "Prop2");
     Some (mkComponent 3 "Prop3"); Some (mkComponent 4 "Prop4")]
    sample_location sample_rotation
    (mkFRotator F32.zero F32.zero F32.zero).

(** A snapshot in flight, and one after a crash somewhere else. *)
Definition sample_flying : Kinematics :=
  mkKinematics (mkFVector (F32.of_Z 3) (F32.of_Z 4) (F32.of_Z 12))
    (mkFRotator F32.zero (F32.of_Z 45) F32.zero)
    [F32.of_Z 1; F32.of_Z 1; F32.of_Z 0; F32.of_Z 0] false.

Definition sample_crashed : Kinematics :=
  mkKinematics (mkFVector (F32.of_Z 7) (F32.of_Z 7) (F32.of_Z 0))
    (mkFRotator (F32.of_Z 30) F32.zero F32.zero)
    [F32.zero; F32.zero; F32.zero; F32.zero] true.

Definition sample_feed : Feed := mkFeed sample_flying (F32.zero, F32.zero).
Definition sample_crash_feed : Feed := mkFeed sample_crashed (F32.zero, F32.zero).

Definition sample_dt : F32.t := F32.of_Z 0.

Definition sample_tick : Op := OpTick sample_dt sample_feed.

(* ===================================================================== *)
(** ** PostInitializeComponents: the propeller meshes *)
(* ===================================================================== *)

(** [sprintf_s(propname, "Prop%d", j+1)]. *)
Definition propname (j : nat) : string :=
  ("Prop" ++ DecimalString.NilEmpty.string_of_uint (Nat.to_uint (j + 1)))%string.

(** [child->GetName() == propname] (the buffer cast to a C string): the
    engine's [FString] equality compares without regard to letter case. *)
Definition FString_equals (a b : string) : bool :=
  String.eqb (FString.fold_case FString.IgnoreCase a)
             (FString.fold_case FString.IgnoreCase b).

(** [for (uint8_t j=0; j<frame.nmotors; ++j) { ... if (child->GetName() ==
    propname) _propMeshes[j] = child; }], with [n] iterations left from [j];
    a store outside the array is undefined. *)
Fixpoint store_prop (child : Component) (j n : nat) (propMeshes : list (option Component))
    : option (list (option Component)) :=
  match n with
  | O => Some propMeshes
  | S n' =>
      if FString_equals (GetName child) (propname j) then
        if (j <? length propMeshes)%nat
        then store_prop child (S j) n' (<[j := Some child]> propMeshes)
        else None
      else store_prop child (S j) n' propMeshes
  end.

(** [for (int i = 0; i < staticComponents.Num(); i++) if (staticComponents[i])
    { ... }]: the loop of [PostInitializeComponents] that fills [_propMeshes];
    a null entry of the component array is [None]. *)
Fixpoint grab_prop_meshes (f : Frame) (staticComponents : list (option Component))
    (propMeshes : list (option Component)) : option (list (option Component)) :=
  match staticComponents with
  | [] => Some propMeshes
  | None :: rest => grab_prop_meshes f rest propMeshes
  | Some child :: rest =>
      match store_prop child 0 (nmotors f) propMeshes with
      | Some propMeshes' => grab_prop_meshes f rest propMeshes'
      | None => None
      end
  end.

(** The last component of the array whose name is that of prop [j]. *)
Fixpoint last_named (j : nat) (staticComponents : list (option Component)) : option Component :=
  match staticComponents with
  | [] => None
  | c :: rest =>
      match last_named j rest with
      | Some child => Some child
      | None =>
          match c with
          | Some child => if FString_equals (GetName child) (propname j) then Some child else None
          | None => None
          end
      end
  end.

(** [AVehiclePawn::PostInitializeComponents], as far as the pawn's state
    goes: [_propMeshes] after the loop over [staticComponents]. *)
Definition PostInitializeComponents (staticComponents : list (option Component)) (p : Pawn)
    : option Pawn :=
  match grab_prop_meshes (frame p) staticComponents (_propMeshes p) with
  | Some propMeshes =>
      Some (mkPawn (frame p) (params p) (_camera1RenderTarget p) (_camera2RenderTarget p)
              (_mapSelected p) (_startLocation p) (_startRotation p)
              (_flightManager p) (_videoManager p) (_motorvals p) propMeshes
              (actorLocation p) (actorRotation p) (fpvSpringArmRotation p))
  | None => None
  end.

(* ===================================================================== *)
(** ** A running pawn *)
(* ===================================================================== *)

(** A map is selected, both handles point to live workers, the frame has a
    direction for each motor and the pawn a mesh for each prop. *)
Definition armed (p : Pawn) (g : Globals) : Prop :=
  _mapSelected p = true /\
  (exists fm vm, _flightManager p = ptr fm /\ _videoManager p = ptr vm /\
                 is_Some (workers g !! fm) /\ is_Some (workers g !! vm)) /\
  (nmotors (frame p) <= length (motordirs (frame p)))%nat /\
  props_bound p = true.

(** A tick whose snapshot carries a value for each motor of the frame. *)
Definition fed (f : Frame) (o : Op) : Prop :=
  match o with
  | OpTick _ feed => (nmotors f <= length (k_motorvals (feed_kinematics feed)))%nat
  | _ => False
  end.

(** The workers a pawn holds a handle to. *)
Definition owned_by (h : WorkerPtr) : gset nat :=
  match h with
  | nullptr => ∅
  | ptr id => {[id]}
  end.

Definition owned (p : Pawn) : gset nat :=
  owned_by (_flightManager p) ∪ owned_by (_videoManager p).

(** Where [float] stops telling [x] from [x + 1]: 2^24. *)
Definition rotation_ceiling : F32.t := F32.of_Z (2 ^ 24).

(** The sample pawn with a map and two workers, and a process state that has
    those workers alive, at a given counter and static rotation. *)
Definition sample_running_pawn : Pawn :=
  AVehiclePawn.set_videoManager (ptr 1) (AVehiclePawn.set_flightManager (ptr 0)
    (AVehiclePawn.set_start sample_location sample_rotation
       (AVehiclePawn.set_mapSelected true sample_pawn))).

Definition sample_running_globals (c : Z) (rot : F32.t) : Globals :=
  mkGlobals c rot
    (<[1%nat := VideoManager (_camera1RenderTarget sample_pawn) (_camera2RenderTarget sample_pawn)]>
       (<[0%nat := FlightManager sample_frame (mkParams 0) sample_location sample_rotation]> ∅))
    2 [].

(** The static mesh components of a sample pawn: the body, two meshes named
    for prop 1, one for prop 3 in lower case, one for a prop the frame does not
    have, and a null entry. *)
Definition sample_components : list (option Component) :=
  [Some (mkComponent 10 "PlaneMesh0"); Some (mkComponent 11 "Prop1"); None;
   Some (mkComponent 12 "prop3"); Some (mkComponent 13 "Prop1");
   Some (mkComponent 14 "Prop5")].

(** The sample pawn when only the components of [sample_components] were
    found: the slots of props 2 and 4 hold nothing. *)
Definition sample_half_rigged_pawn : Pawn :=
  mkPawn (frame sample_pawn) (params sample_pawn)
    (_camera1RenderTarget sample_pawn) (_camera2RenderTarget sample_pawn)
    true sample_location sample_rotation (ptr 0) (ptr 1)
    [F32.of_Z 1; F32.of_Z 1; F32.of_Z 0; F32.of_Z 0]
    [Some (mkComponent 13 "Prop1"); None; Some (mkComponent 12 "prop3"); None]
    sample_location sample_rotation (mkFRotator F32.zero F32.zero F32.zero).

(** A frame without motors, and the sample pawn on it. *)
Definition sample_bare_pawn : Pawn :=
  mkPawn (mkFrame 0 []) (mkParams 0)
    (_camera1RenderTarget sample_pawn) (_camera2RenderTarget sample_pawn)
    true sample_location sample_rotation (ptr 0) (ptr 1) [] []
    sample_location sample_rotation (mkFRotator F32.zero F32.zero F32.zero).

(* ===================================================================== *)
(** ** Strings *)
(* ===================================================================== *)

Lemma char_eqb_fold sc a b :
  FString.char_eqb sc a b = true <-> FString.fold_char sc a = FString.fold_char sc b.
Proof. destruct sc; apply Ascii.eqb_eq. Qed.

Lemma StartsWith_spec sc sub : forall s,
  FString.StartsWith sc sub s = true <->
  exists mid post,
    s = (mid ++ post)%string /\ FString.fold_case sc mid = FString.fold_case sc sub.
Proof.
  induction sub as [|a sub IH]; intros s.
  - split; [intros _ | reflexivity].
    exists EmptyString, s. split; reflexivity.
  - destruct s as [|c s]; cbn [FString.StartsWith].
    + split; [discriminate |].
      intros (mid & post & Hs & Hu). destruct mid; discriminate.
    + rewrite andb_true_iff, char_eqb_fold, IH. split.
      * intros (Hc & mid & post & -> & Hu).
        exists (String c mid), post. split; [reflexivity |].
        cbn [FString.fold_case]. congruence.
      * intros (mid & post & Hs & Hu).
        destruct mid as [|c' mid]; [discriminate |].
        cbn [FString.fold_case] in Hu. cbn [String.append] in Hs.
        injection Hs as -> ->. injection Hu as Hc Hu.
        split; [congruence |]. exists mid, post. split; [reflexivity | exact Hu].
Qed.

(** The search behind [FString::Contains] decides occurrence under its
    search case. *)
Lemma Contains_with_spec sc sub : forall s,
  FString.Contains_with sub sc s = true <-> FString.occurs_under sc sub s.
Proof.
  unfold FString.Contains_with, FString.occurs_under.
  induction s as [|c s IH]; cbn [FString.Find].
  - rewrite orb_false_r, StartsWith_spec. split.
    + intros (mid & post & Hs & Hu). exists EmptyString, mid, post. split; assumption.
    + intros (pre & mid & post & Hs & Hu).
      destruct pre; [| discriminate]. exists mid, post. split; assumption.
  - rewrite orb_true_iff, StartsWith_spec, IH. split.
    + intros [(mid & post & Hs & Hu) | (pre & mid & post & Hs & Hu)].
      * exists EmptyString, mid, post. split; assumption.
      * exists (String c pre), mid, post. split; [rewrite Hs; reflexivity | assumption].
    + intros (pre & mid & post & Hs & Hu). destruct pre as [|c' pre].
      * left. exists mid, post. split; assumption.
      * right. cbn [String.append] in Hs. injection Hs as -> ->.
        exists pre, mid, post. split; [reflexivity | assumption].
Qed.

Lemma fold_case_sensitive s : FString.fold_case FString.CaseSensitive s = s.
Proof. induction s as [|c s IH]; cbn; [reflexivity | now rewrite IH]. Qed.

(** Case-sensitive search is plain substring occurrence. *)
Lemma occurs_under_sensitive sub s :
  FString.occurs_under FString.CaseSensitive sub s <-> FString.occurs sub s.
Proof.
  split.
  - intros (pre & mid & post & -> & Hm). rewrite !fold_case_sensitive in Hm. subst mid.
    exists pre, post. reflexivity.
  - intros (pre & post & ->). exists pre, sub, post. split; reflexivity.
Qed.

Lemma Contains_nocase sub s :
  FString.Contains s sub = true <-> FString.occurs_nocase sub s.
Proof. apply Contains_with_spec. Qed.

Lemma occurs_occurs_nocase sub s : FString.occurs sub s -> FString.occurs_nocase sub s.
Proof.
  intros (pre & post & ->). exists pre, sub, post. split; reflexivity.
Qed.

(* ===================================================================== *)
(** ** Equations of the pawn's operations *)
(* ===================================================================== *)

Import AVehiclePawn.

Lemma events_since_app g g' evs :
  trace g' = trace g ++ evs -> events_since g g' = evs.
Proof. intros H. unfold events_since. rewrite H. apply drop_app_length. Qed.

Lemma stopThreadedWorker_eq h g :
  FThreadedWorker.stopThreadedWorker h g =
  Some (nullptr,
        mkGlobals (count g) (rotation g) (FThreadedWorker.release h (workers g))
          (next_worker g) (trace g ++ [EvStop h])).
Proof. reflexivity. Qed.

Lemma stopThreadedWorkers_eq p g :
  stopThreadedWorkers p g =
  Some (set_videoManager nullptr (set_flightManager nullptr p),
        mkGlobals (count g) (rotation g)
          (FThreadedWorker.release (_videoManager p)
             (FThreadedWorker.release (_flightManager p) (workers g)))
          (next_worker g)
          (trace g ++ [EvStop (_flightManager p); EvStop (_videoManager p)])).
Proof.
  unfold stopThreadedWorkers, bind. rewrite stopThreadedWorker_eq.
  cbn [_videoManager set_flightManager]. rewrite stopThreadedWorker_eq.
  cbn. rewrite <- app_assoc. reflexivity.
Qed.

Lemma startThreadedWorkers_eq p g :
  let n := next_worker g in
  let fm := FlightManager (frame p) (params p) (_startLocation p) (_startRotation p) in
  let vm := VideoManager (_camera1RenderTarget p) (_camera2RenderTarget p) in
  startThreadedWorkers p g =
  Some (set_videoManager (ptr (S n)) (set_flightManager (ptr n) p),
        mkGlobals (count g) (rotation g) (<[S n := vm]> (<[n := fm]> (workers g)))
          (S (S n)) (trace g ++ [EvCreate n fm; EvCreate (S n) vm])).
Proof.
  cbv zeta. unfold startThreadedWorkers, bind, FFlightManager.create, FVideoManager.create,
    bind, allocate, emit, ret. cbn. rewrite <- app_assoc. reflexivity.
Qed.

Lemma deref_live id w g :
  workers g !! id = Some w -> deref (ptr id) g = Some (id, g).
Proof. intros H. unfold deref, bind, get_workers. rewrite H. reflexivity. Qed.

Lemma deref_null g : deref nullptr g = None.
Proof. reflexivity. Qed.

Lemma deref_Some h g r :
  deref h g = Some r -> exists id, h = ptr id /\ is_Some (workers g !! id) /\ r = (id, g).
Proof.
  destruct h as [|id]; [discriminate |].
  unfold deref, bind, get_workers. destruct (workers g !! id) eqn:E; [| discriminate].
  intros [= <-]. exists id. eauto.
Qed.

Lemma BeginPlay_unselected mapName p g :
  FString.Contains mapName "Untitled" = true ->
  BeginPlay mapName p g =
  Some (set_mapSelected false p,
        mkGlobals (count g) (rotation g) (workers g) (next_worker g)
          (trace g ++ [EvError "NO MAP SELECTED"; EvSuperBeginPlay])).
Proof.
  intros H. unfold BeginPlay. rewrite H. cbn. rewrite <- app_assoc. reflexivity.
Qed.

Lemma BeginPlay_selected mapName p g :
  FString.Contains mapName "Untitled" = false ->
  let n := next_worker g in
  let fm := FlightManager (frame p) (params p) (actorLocation p) (actorRotation p) in
  let vm := VideoManager (_camera1RenderTarget p) (_camera2RenderTarget p) in
  BeginPlay mapName p g =
  Some (set_videoManager (ptr (S n)) (set_flightManager (ptr n)
          (set_start (actorLocation p) (actorRotation p) (set_mapSelected true p))),
        mkGlobals (count g) (rotation g) (<[S n := vm]> (<[n := fm]> (workers g)))
          (S (S n))
          (trace g ++ [EvAudioPlay; EvCreate n fm; EvCreate (S n) vm; EvSuperBeginPlay])).
Proof.
  intros H. cbv zeta. unfold BeginPlay. rewrite H.
  cbn [negb set_mapSelected _mapSelected]. unfold bind at 1. unfold bind at 1.
  cbn [emit]. rewrite startThreadedWorkers_eq. cbn. rewrite <- !app_assoc. reflexivity.
Qed.

Lemma EndPlay_unselected p g :
  _mapSelected p = false ->
  EndPlay p g =
  Some (p, mkGlobals (count g) (rotation g) (workers g) (next_worker g)
             (trace g ++ [EvSuperEndPlay])).
Proof. intros H. unfold EndPlay. rewrite H. reflexivity. Qed.

Lemma EndPlay_selected p g :
  _mapSelected p = true ->
  EndPlay p g =
  Some (set_videoManager nullptr (set_flightManager nullptr p),
        mkGlobals (count g) (rotation g)
          (FThreadedWorker.release (_videoManager p)
             (FThreadedWorker.release (_flightManager p) (workers g)))
          (next_worker g)
          (trace g ++ [EvStop (_flightManager p); EvStop (_videoManager p); EvSuperEndPlay])).
Proof.
  intros H. unfold EndPlay. rewrite H. unfold bind at 1. rewrite stopThreadedWorkers_eq.
  cbn. rewrite <- app_assoc. reflexivity.
Qed.

(** A tick whose gate stays shut only calls the base class. *)
Lemma Tick_unselected dt feed p g :
  _mapSelected p = false ->
  Tick dt feed p g =
  Some (p, mkGlobals (count g) (rotation g) (workers g) (next_worker g)
             (trace g ++ [EvSuperTick dt])).
Proof. intros H. unfold Tick, gate. rewrite H. reflexivity. Qed.

Lemma Tick_early dt feed p g :
  _mapSelected p = true -> count g <= 10 ->
  Tick dt feed p g =
  Some (p, mkGlobals (wrap64 (count g + 1)) (rotation g) (workers g) (next_worker g)
             (trace g ++ [EvSuperTick dt])).
Proof.
  intros H Hc. unfold Tick, gate. rewrite H.
  unfold bind, count_post_increment, ret.
  replace (10 <? count g) with false by (symmetry; apply Z.ltb_ge; exact Hc).
  reflexivity.
Qed.

Lemma sum_motorvals_spec vals : forall n j acc,
  (j + n <= length vals)%nat ->
  sum_motorvals vals j n acc = Some (foldl F32.add acc (take n (drop j vals))).
Proof.
  induction n as [|n IH]; intros j acc Hlen; cbn [sum_motorvals].
  - reflexivity.
  - destruct (lookup_lt_is_Some_2 vals j) as [v Hv]; [lia |].
    rewrite Hv, IH by lia. rewrite (drop_S _ _ _ Hv). reflexivity.
Qed.

Lemma props_bound_lookup p j :
  props_bound p = true -> (j < nmotors (frame p))%nat ->
  exists c, _propMeshes p !! j = Some (Some c).
Proof.
  unfold props_bound. rewrite forallb_forall. intros H Hj.
  specialize (H j). rewrite in_seq in H.
  destruct (_propMeshes p !! j) as [[c|]|]; [eauto | |]; discriminate H; lia.
Qed.

Lemma rotate_props_spec meshes dirs rot : forall n j g,
  (forall i, (j <= i < j + n)%nat -> exists c, meshes !! i = Some (Some c)) ->
  (j + n <= length dirs)%nat ->
  rotate_props meshes dirs rot j n g =
  Some (tt, mkGlobals (count g) (rotation g) (workers g) (next_worker g)
              (trace g ++
               imap (fun i dir =>
                       EvPropRotation (j + i)
                         (mkFRotator F32.zero
                            (F32.mul (F32.mul rot (F32.of_Z dir)) (F32.of_Z 100)) F32.zero))
                    (take n (drop j dirs)))).
Proof.
  induction n as [|n IH]; intros j g Hm Hlen; cbn [rotate_props].
  - cbn. rewrite app_nil_r. destruct g; reflexivity.
  - destruct (Hm j) as [c Hc]; [lia |].
    destruct (lookup_lt_is_Some_2 dirs j) as [dir Hd]; [lia |].
    rewrite Hc, Hd. unfold bind at 1. cbn [emit].
    rewrite IH by (cbn; try lia; intros i Hi; apply Hm; lia).
    rewrite (drop_S _ _ _ Hd). cbn [take imap trace count rotation workers next_worker].
    rewrite <- app_assoc. cbn [app]. rewrite Nat.add_0_r.
    do 5 f_equal. apply imap_ext. intros i x _. cbn. f_equal. lia.
Qed.

Lemma addAnimationEffects_eq p g :
  (nmotors (frame p) <= length (_motorvals p))%nat ->
  (nmotors (frame p) <= length (motordirs (frame p)))%nat ->
  props_bound p = true ->
  addAnimationEffects p g =
  Some (tt, mkGlobals (count g) (next_rotation (frame p) (_motorvals p) (rotation g))
              (workers g) (next_worker g)
              (trace g ++ animation_events (frame p) (_motorvals p) (rotation g))).
Proof.
  intros Hv Hd Hb. unfold addAnimationEffects.
  rewrite sum_motorvals_spec by (cbn; lia). rewrite drop_0.
  unfold animation_events, next_rotation, motormean, arithmetic_mean.
  rewrite length_take, Nat.min_l by exact Hv.
  set (mean := F32.div _ _).
  unfold bind at 1. unfold setAudioPitchAndVolume, bind at 1. cbn [emit].
  destruct (F32.gtb mean F32.zero).
  - unfold bind, get_rotation, set_rotation. cbn [rotation].
    rewrite rotate_props_spec
      by (cbn; first [lia | intros i Hi; apply props_bound_lookup; [exact Hb | lia]]).
    rewrite drop_0. cbn.
    rewrite <- !app_assoc. reflexivity.
  - cbn. rewrite <- !app_assoc. reflexivity.
Qed.

Lemma bind_Some {A B} (m : M A) (k : A -> M B) g a g' :
  m g = Some (a, g') -> bind m k g = k a g'.
Proof. intros H. unfold bind. rewrite H. reflexivity. Qed.

Lemma bind_None {A B} (m : M A) (k : A -> M B) g :
  m g = None -> bind m k g = None.
Proof. intros H. unfold bind. rewrite H. reflexivity. Qed.

Lemma bind_inv {A B} (m : M A) (k : A -> M B) g r :
  bind m k g = Some r -> exists a g', m g = Some (a, g') /\ k a g' = Some r.
Proof.
  unfold bind. destruct (m g) as [[a g']|]; [| discriminate]. eauto.
Qed.

Lemma gate_open p g :
  _mapSelected p = true -> 10 < count g ->
  gate p g = Some (true, mkGlobals (wrap64 (count g + 1)) (rotation g) (workers g)
                            (next_worker g) (trace g)).
Proof.
  intros H Hc. unfold gate. rewrite H. unfold bind, count_post_increment, ret.
  replace (10 <? count g) with true by (symmetry; apply Z.ltb_lt; exact Hc).
  reflexivity.
Qed.

Lemma getKinematics_flying k p g id w :
  _flightManager p = ptr id -> workers g !! id = Some w -> k_crashed k = false ->
  getKinematics k p g =
  Some (SetActorRotation (k_rotation k)
          (SetActorLocation (k_location k) (set_motorvals (k_motorvals k) p)),
        mkGlobals (count g) (rotation g) (workers g) (next_worker g)
          (trace g ++ [EvGetKinematics id])).
Proof.
  intros Hfm Hw Hc. unfold getKinematics, FFlightManager.getKinematics.
  rewrite Hfm. unfold bind at 1. unfold bind at 1. rewrite (deref_live _ _ _ Hw).
  unfold bind at 1. cbn [emit ret]. rewrite Hc. reflexivity.
Qed.

Lemma getKinematics_crashed k p g id w :
  _flightManager p = ptr id -> workers g !! id = Some w -> k_crashed k = true ->
  let n := next_worker g in
  let fm := FlightManager (frame p) (params p) (_startLocation p) (_startRotation p) in
  let vm := VideoManager (_camera1RenderTarget p) (_camera2RenderTarget p) in
  getKinematics k p g =
  Some (SetActorRotation (k_rotation k)
          (SetActorLocation (k_location k)
             (set_videoManager (ptr (S n)) (set_flightManager (ptr n)
                (set_motorvals (k_motorvals k) p)))),
        mkGlobals (count g) (rotation g)
          (<[S n := vm]> (<[n := fm]>
             (FThreadedWorker.release (_videoManager p)
                (FThreadedWorker.release (ptr id) (workers g)))))
          (S (S n))
          (trace g ++ [EvGetKinematics id; EvStop (ptr id); EvStop (_videoManager p);
                       EvCreate n fm; EvCreate (S n) vm])).
Proof.
  intros Hfm Hw Hc. cbv zeta. unfold getKinematics, FFlightManager.getKinematics.
  rewrite Hfm. unfold bind at 1. unfold bind at 1. rewrite (deref_live _ _ _ Hw).
  unfold bind at 1. cbn [emit ret]. rewrite Hc.
  unfold bind at 1. unfold bind at 1. rewrite stopThreadedWorkers_eq.
  rewrite startThreadedWorkers_eq.
  cbn. rewrite Hfm. rewrite <- !app_assoc. reflexivity.
Qed.

(** What follows the kinematics read in an open tick, for a pawn whose two
    workers are alive. *)
Lemma Tick_tail rp p g fm vm w1 w2 :
  _flightManager p = ptr fm -> _videoManager p = ptr vm ->
  workers g !! fm = Some w1 -> workers g !! vm = Some w2 ->
  (nmotors (frame p) <= length (_motorvals p))%nat ->
  (nmotors (frame p) <= length (motordirs (frame p)))%nat ->
  props_bound p = true ->
  (addAnimationEffects p;;
   let* self := setGimbal rp p in
   FVideoManager.grabCurrentImage (_videoManager self);;
   FFlightManager.getMessage (_flightManager self);;
   debug;;
   ret self) g =
  Some (SetWorldRotation
          (mkFRotator (F32.sub (Pitch (fpvSpringArmRotation p)) (snd rp))
             (Yaw (fpvSpringArmRotation p))
             (F32.add (Roll (fpvSpringArmRotation p)) (fst rp))) p,
        mkGlobals (count g) (next_rotation (frame p) (_motorvals p) (rotation g))
          (workers g) (next_worker g)
          (trace g ++ animation_events (frame p) (_motorvals p) (rotation g) ++
           [EvGetGimbal fm; EvGrabCurrentImage vm; EvGetMessage fm; EvDebug])).
Proof.
  intros Hfm Hvm Hwf Hwv Hv Hd Hb.
  erewrite bind_Some by (apply addAnimationEffects_eq; assumption).
  unfold setGimbal, FFlightManager.getGimbal, FVideoManager.grabCurrentImage,
    FFlightManager.getMessage, debug.
  rewrite Hfm.
  unfold bind at 1. unfold bind at 1. unfold bind at 1.
  erewrite deref_live by (cbn; exact Hwf).
  unfold bind at 1. cbn [emit ret SetWorldRotation _videoManager _flightManager].
  rewrite Hvm, Hfm.
  unfold bind at 1. unfold bind at 1.
  erewrite deref_live by (cbn; exact Hwv).
  cbn [emit]. unfold bind at 1. unfold bind at 1.
  erewrite deref_live by (cbn; exact Hwf).
  cbn. rewrite <- !app_assoc. reflexivity.
Qed.

(** An open tick on a vehicle in flight. *)
Lemma Tick_flying dt feed p g fm vm w1 w2 :
  let k := feed_kinematics feed in
  let p1 := SetActorRotation (k_rotation k)
              (SetActorLocation (k_location k) (set_motorvals (k_motorvals k) p)) in
  _mapSelected p = true -> 10 < count g ->
  _flightManager p = ptr fm -> _videoManager p = ptr vm ->
  workers g !! fm = Some w1 -> workers g !! vm = Some w2 ->
  k_crashed k = false ->
  (nmotors (frame p) <= length (k_motorvals k))%nat ->
  (nmotors (frame p) <= length (motordirs (frame p)))%nat ->
  props_bound p = true ->
  Tick dt feed p g =
  Some (SetWorldRotation
          (mkFRotator (F32.sub (Pitch (fpvSpringArmRotation p)) (snd (feed_gimbal feed)))
             (Yaw (fpvSpringArmRotation p))
             (F32.add (Roll (fpvSpringArmRotation p)) (fst (feed_gimbal feed)))) p1,
        mkGlobals (wrap64 (count g + 1))
          (next_rotation (frame p) (k_motorvals k) (rotation g))
          (workers g) (next_worker g)
          (trace g ++ [EvGetKinematics fm] ++
           animation_events (frame p) (k_motorvals k) (rotation g) ++
           [EvGetGimbal fm; EvGrabCurrentImage vm; EvGetMessage fm; EvDebug; EvSuperTick dt])).
Proof.
  intros k p1 Hsel Hc Hfm Hvm Hw1 Hw2 Hcr Hv Hd Hb. unfold Tick.
  erewrite bind_Some by (apply gate_open; assumption).
  unfold bind at 1. unfold bind at 1.
  erewrite getKinematics_flying by (cbn; eassumption).
  fold k. fold p1.
  erewrite (Tick_tail _ p1) by (cbn; eassumption).
  unfold bind, emit, ret. cbn [trace count rotation workers next_worker _motorvals frame].
  rewrite <- !app_assoc. reflexivity.
Qed.

(** An open tick that reads a crash: both workers are replaced before the
    effects, the gimbal and the video of the same tick. *)
Lemma Tick_crashed dt feed p g fm w1 :
  let k := feed_kinematics feed in
  let n := next_worker g in
  let fmw := FlightManager (frame p) (params p) (_startLocation p) (_startRotation p) in
  let vmw := VideoManager (_camera1RenderTarget p) (_camera2RenderTarget p) in
  let p1 := SetActorRotation (k_rotation k)
              (SetActorLocation (k_location k)
                 (set_videoManager (ptr (S n)) (set_flightManager (ptr n)
                    (set_motorvals (k_motorvals k) p)))) in
  _mapSelected p = true -> 10 < count g ->
  _flightManager p = ptr fm ->
  workers g !! fm = Some w1 ->
  k_crashed k = true ->
  (nmotors (frame p) <= length (k_motorvals k))%nat ->
  (nmotors (frame p) <= length (motordirs (frame p)))%nat ->
  props_bound p = true ->
  Tick dt feed p g =
  Some (SetWorldRotation
          (mkFRotator (F32.sub (Pitch (fpvSpringArmRotation p)) (snd (feed_gimbal feed)))
             (Yaw (fpvSpringArmRotation p))
             (F32.add (Roll (fpvSpringArmRotation p)) (fst (feed_gimbal feed)))) p1,
        mkGlobals (wrap64 (count g + 1))
          (next_rotation (frame p) (k_motorvals k) (rotation g))
          (<[S n := vmw]> (<[n := fmw]>
             (FThreadedWorker.release (_videoManager p)
                (FThreadedWorker.release (ptr fm) (workers g)))))
          (S (S n))
          (trace g ++
           [EvGetKinematics fm; EvStop (ptr fm); EvStop (_videoManager p);
            EvCreate n fmw; EvCreate (S n) vmw] ++
           animation_events (frame p) (k_motorvals k) (rotation g) ++
           [EvGetGimbal n; EvGrabCurrentImage (S n); EvGetMessage n; EvDebug; EvSuperTick dt])).
Proof.
  intros k n fmw vmw p1 Hsel Hc Hfm Hw1 Hcr Hv Hd Hb. unfold Tick.
  erewrite bind_Some by (apply gate_open; assumption).
  unfold bind at 1. unfold bind at 1.
  erewrite getKinematics_crashed by (cbn; eassumption).
  cbn [next_worker]. fold k. fold n. fold fmw. fold vmw. fold p1.
  erewrite (Tick_tail _ p1 _ n (S n) fmw vmw);
    cbn [trace count rotation workers next_worker _motorvals frame];
    try reflexivity; try assumption.
  - unfold bind, emit, ret. cbn [trace count rotation workers next_worker _motorvals frame].
    rewrite <- !app_assoc. reflexivity.
  - rewrite lookup_insert_ne by lia. apply lookup_insert_eq.
  - apply lookup_insert_eq.
Qed.

(* ===================================================================== *)
(** ** Quiet stretches *)
(* ===================================================================== *)

Lemma quiet_refl g : quiet g g.
Proof.
  repeat split. exists []. split; [symmetry; apply app_nil_r | reflexivity].
Qed.

Lemma quiet_trans g1 g2 g3 : quiet g1 g2 -> quiet g2 g3 -> quiet g1 g3.
Proof.
  intros (Hc & Hw & Hn & e1 & Ht & Hq) (Hc' & Hw' & Hn' & e2 & Ht' & Hq').
  repeat split; try congruence.
  exists (e1 ++ e2). split.
  - rewrite Ht', Ht. symmetry. apply app_assoc.
  - rewrite forallb_app, Hq, Hq'. reflexivity.
Qed.

Lemma quiet_emit e g u g' :
  is_quiet e = true -> emit e g = Some (u, g') -> quiet g g'.
Proof.
  intros He [= <- <-]. repeat split. exists [e]. split; [reflexivity |].
  cbn. rewrite He. reflexivity.
Qed.

Lemma quiet_deref h g r : deref h g = Some r -> r.2 = g /\ handle_ok h (workers g) /\ h = ptr r.1.
Proof.
  intros H. apply deref_Some in H as (id & -> & Hs & ->). auto.
Qed.

Lemma rotate_props_quiet meshes dirs rot : forall n j g u g',
  rotate_props meshes dirs rot j n g = Some (u, g') ->
  rotation g' = rotation g /\ quiet g g'.
Proof.
  induction n as [|n IH]; intros j g u g'; cbn [rotate_props].
  - intros [= <- <-]. split; [reflexivity | apply quiet_refl].
  - destruct (meshes !! j) as [[c|]|]; try discriminate.
    destruct (dirs !! j); [| discriminate].
    intros H. apply bind_inv in H as (u1 & g1 & He & H).
    apply IH in H as (Hr & Hq).
    assert (He' := He). injection He' as _ <-.
    split; [exact Hr |].
    eapply quiet_trans; [eapply quiet_emit; [| exact He]; reflexivity | exact Hq].
Qed.

Lemma addAnimationEffects_quiet p g u g' :
  addAnimationEffects p g = Some (u, g') -> quiet g g'.
Proof.
  unfold addAnimationEffects.
  destruct (sum_motorvals _ _ _ _) as [mean|]; [| discriminate].
  intros H. apply bind_inv in H as (u1 & g1 & Ha & H).
  assert (quiet g g1) as Hq1.
  { unfold setAudioPitchAndVolume in Ha. apply bind_inv in Ha as (u2 & g2 & Ha1 & Ha2).
    eapply quiet_trans.
    - eapply quiet_emit; [| exact Ha1]; reflexivity.
    - eapply quiet_emit; [| exact Ha2]; reflexivity. }
  eapply quiet_trans; [exact Hq1 |].
  destruct (F32.gtb _ _).
  - apply bind_inv in H as (r & g2 & Hg & H). injection Hg as <- <-.
    apply bind_inv in H as (u3 & g3 & Hr & H).
    apply rotate_props_quiet in Hr as (_ & Hq).
    eapply quiet_trans; [exact Hq |].
    injection H as _ <-. repeat split. exists []. split; [symmetry; apply app_nil_r | reflexivity].
  - injection H as _ <-. apply quiet_refl.
Qed.

(** A call through a worker pointer succeeds only on a live worker. *)
Lemma worker_call_inv {A} (e : nat -> Event) (a : A) h g r :
  (let* id := deref h in emit (e id);; ret a) g = Some r ->
  exists id, h = ptr id /\ is_Some (workers g !! id) /\
    r = (a, mkGlobals (count g) (rotation g) (workers g) (next_worker g) (trace g ++ [e id])).
Proof.
  intros H. apply bind_inv in H as (id & g1 & Hd & H).
  apply deref_Some in Hd as (id' & -> & Hs & [= -> ->]).
  exists id'. split; [reflexivity |]. split; [exact Hs |].
  cbv [bind emit ret] in H. congruence.
Qed.

Lemma worker_call_unit_inv (e : nat -> Event) h g r :
  (let* id := deref h in emit (e id)) g = Some r ->
  exists id, h = ptr id /\ is_Some (workers g !! id) /\
    r = (tt, mkGlobals (count g) (rotation g) (workers g) (next_worker g) (trace g ++ [e id])).
Proof.
  intros H. apply bind_inv in H as (id & g1 & Hd & H).
  apply deref_Some in Hd as (id' & -> & Hs & [= -> ->]).
  exists id'. split; [reflexivity |]. split; [exact Hs |].
  cbv [emit] in H. congruence.
Qed.

Lemma quiet_log g e :
  is_quiet e = true ->
  quiet g (mkGlobals (count g) (rotation g) (workers g) (next_worker g) (trace g ++ [e])).
Proof.
  intros He. repeat split. exists [e]. split; [reflexivity |]. cbn. rewrite He. reflexivity.
Qed.

(** What follows the kinematics read, when it succeeds: both handles were
    live, nothing was stopped or created, only the spring arm moved. *)
Lemma Tick_tail_inv rp p g p' g' :
  (addAnimationEffects p;;
   let* self := setGimbal rp p in
   FVideoManager.grabCurrentImage (_videoManager self);;
   FFlightManager.getMessage (_flightManager self);;
   debug;;
   ret self) g = Some (p', g') ->
  quiet g g' /\
  handle_ok (_flightManager p) (workers g) /\ handle_ok (_videoManager p) (workers g) /\
  (exists fm vm, _flightManager p = ptr fm /\ _videoManager p = ptr vm) /\
  exists rot, p' = SetWorldRotation rot p.
Proof.
  intros H. apply bind_inv in H as (u & g1 & Ha & H).
  apply addAnimationEffects_quiet in Ha as Hq1.
  apply bind_inv in H as (p2 & g2 & Hg & H).
  unfold setGimbal in Hg. apply bind_inv in Hg as (got & g1' & Hg & Hr).
  apply worker_call_inv in Hg as (fm & Hfm & Hlf & [= -> ->]).
  injection Hr as <- <-.
  apply bind_inv in H as (u3 & g3 & Hv & H).
  apply worker_call_unit_inv in Hv as (vm & Hvm & Hlv & [= -> ->]).
  apply bind_inv in H as (u4 & g4 & Hm & H).
  apply worker_call_unit_inv in Hm as (fm' & Hfm' & Hlf' & [= -> ->]).
  cbv [debug bind emit ret] in H. injection H as <- <-.
  cbn [_videoManager _flightManager SetWorldRotation] in *.
  cbn [workers] in *.
  destruct Hq1 as (Hc1 & Hw1 & Hn1 & ev1 & Ht1 & Hf1).
  rewrite Hw1 in Hlf, Hlv.
  split; [| split; [| split; [| split]]].
  - split; [exact Hc1 |]. split; [exact Hw1 |]. split; [exact Hn1 |].
    exists (ev1 ++ [EvGetGimbal fm; EvGrabCurrentImage vm; EvGetMessage fm'; EvDebug]).
    split.
    + cbn [trace]. rewrite Ht1, <- !app_assoc. reflexivity.
    + rewrite forallb_app, Hf1. reflexivity.
  - rewrite Hfm. exact Hlf.
  - rewrite Hvm. exact Hlv.
  - eauto.
  - eexists. reflexivity.
Qed.

Lemma getKinematics_inv k p g r :
  getKinematics k p g = Some r ->
  exists fm w, _flightManager p = ptr fm /\ workers g !! fm = Some w.
Proof.
  intros H. unfold getKinematics in H. apply bind_inv in H as (k' & g1 & H & _).
  apply worker_call_inv in H as (fm & Hfm & [w Hw] & _). eauto.
Qed.

(** The three ways a tick can go. *)
Lemma Tick_inv dt feed p g p' g' :
  Tick dt feed p g = Some (p', g') ->
  (_mapSelected p = false /\ p' = p /\
   g' = mkGlobals (count g) (rotation g) (workers g) (next_worker g)
          (trace g ++ [EvSuperTick dt]))
  \/
  (_mapSelected p = true /\ count g <= 10 /\ p' = p /\
   g' = mkGlobals (wrap64 (count g + 1)) (rotation g) (workers g) (next_worker g)
          (trace g ++ [EvSuperTick dt]))
  \/
  (_mapSelected p = true /\ 10 < count g /\
   exists p1 g1,
     getKinematics (feed_kinematics feed) p
       (mkGlobals (wrap64 (count g + 1)) (rotation g) (workers g) (next_worker g) (trace g))
     = Some (p1, g1) /\
     quiet g1 g' /\
     handle_ok (_flightManager p1) (workers g1) /\ handle_ok (_videoManager p1) (workers g1) /\
     (exists fm vm, _flightManager p1 = ptr fm /\ _videoManager p1 = ptr vm) /\
     exists rot, p' = SetWorldRotation rot p1).
Proof.
  intros H. destruct (_mapSelected p) eqn:Hsel.
  - destruct (Z_le_gt_dec (count g) 10) as [Hc | Hc].
    + rewrite Tick_early in H by assumption. injection H as <- <-. right. left. auto.
    + right. right. split; [reflexivity |]. split; [lia |].
      unfold Tick in H. erewrite bind_Some in H by (apply gate_open; [assumption | lia]).
      apply bind_inv in H as (p2 & g2 & H & Hs).
      apply bind_inv in H as (p1 & g1 & Hk & H).
      apply Tick_tail_inv in H as (Hq & Hf & Hv & Hp & rot & ->).
      cbv [bind emit ret] in Hs. injection Hs as <- <-.
      exists p1, g1. split; [exact Hk |]. split.
      * eapply quiet_trans; [exact Hq |]. apply quiet_log. reflexivity.
      * split; [exact Hf |]. split; [exact Hv |]. split; [exact Hp |]. eauto.
  - rewrite Tick_unselected in H by assumption. injection H as <- <-. left. auto.
Qed.

Lemma same_config_refl p : same_config p p.
Proof. repeat split. Qed.

Lemma same_config_trans p1 p2 p3 :
  same_config p1 p2 -> same_config p2 p3 -> same_config p1 p3.
Proof. unfold same_config. intuition congruence. Qed.

Lemma getKinematics_config k p g p1 g1 :
  getKinematics k p g = Some (p1, g1) -> same_config p p1.
Proof.
  intros H. destruct (getKinematics_inv _ _ _ _ H) as (fm & w & Hfm & Hw).
  destruct (k_crashed k) eqn:Hc.
  - rewrite (getKinematics_crashed _ _ _ _ _ Hfm Hw Hc) in H. injection H as <- <-.
    repeat split.
  - rewrite (getKinematics_flying _ _ _ _ _ Hfm Hw Hc) in H. injection H as <- <-.
    repeat split.
Qed.

Lemma Tick_config dt feed p g p' g' :
  Tick dt feed p g = Some (p', g') -> same_config p p'.
Proof.
  intros H. apply Tick_inv in H as [(_ & -> & _) | [(_ & _ & -> & _) | H]];
    try apply same_config_refl.
  destruct H as (_ & _ & p1 & g1 & Hk & _ & _ & _ & _ & rot & ->).
  apply getKinematics_config in Hk. exact Hk.
Qed.

Lemma EndPlay_total p g : exists p' g', EndPlay p g = Some (p', g') /\ same_config p p'.
Proof.
  destruct (_mapSelected p) eqn:Hsel.
  - rewrite EndPlay_selected by assumption. do 2 eexists. split; [reflexivity |]. repeat split.
  - rewrite EndPlay_unselected by assumption. do 2 eexists. split; [reflexivity |]. repeat split.
Qed.

Lemma step_config o p g p' g' :
  is_BeginPlay o = false -> step o p g = Some (p', g') -> same_config p p'.
Proof.
  destruct o as [name | dt feed |]; cbn [step is_BeginPlay]; intros Hb H.
  - discriminate.
  - eapply Tick_config; exact H.
  - destruct (EndPlay_total p g) as (p2 & g2 & He & Hc). congruence.
Qed.

(** The static counter moves only by a tick of a pawn with a map, and then
    by one, modulo 2^64. *)
Lemma Tick_count dt feed p g p' g' :
  Tick dt feed p g = Some (p', g') ->
  count g' = if _mapSelected p then wrap64 (count g + 1) else count g.
Proof.
  intros H. apply Tick_inv in H as [(-> & _ & ->) | [(-> & _ & _ & ->) | H]];
    try reflexivity.
  destruct H as (-> & _ & p1 & g1 & Hk & (Hc & _) & _).
  rewrite Hc. destruct (getKinematics_inv _ _ _ _ Hk) as (fm & w & Hfm & Hw).
  destruct (k_crashed (feed_kinematics feed)) eqn:Hcr.
  - rewrite (getKinematics_crashed _ _ _ _ _ Hfm Hw Hcr) in Hk. injection Hk as _ <-. reflexivity.
  - rewrite (getKinematics_flying _ _ _ _ _ Hfm Hw Hcr) in Hk. injection Hk as _ <-. reflexivity.
Qed.

Lemma step_count o p g p' g' :
  step o p g = Some (p', g') ->
  count g' = if is_Tick o && _mapSelected p then wrap64 (count g + 1) else count g.
Proof.
  destruct o as [name | dt feed |]; cbn [step is_Tick andb]; intros H.
  - destruct (FString.Contains name "Untitled") eqn:E.
    + rewrite BeginPlay_unselected in H by assumption. injection H as _ <-. reflexivity.
    + rewrite BeginPlay_selected in H by assumption. injection H as _ <-. reflexivity.
  - eapply Tick_count; exact H.
  - destruct (_mapSelected p) eqn:Hsel.
    + rewrite EndPlay_selected in H by assumption. injection H as _ <-. reflexivity.
    + rewrite EndPlay_unselected in H by assumption. injection H as _ <-. reflexivity.
Qed.

(* ===================================================================== *)
(** ** Replaying stops against the live workers *)
(* ===================================================================== *)

Lemma stops_ok_app e1 : forall live e2,
  stops_ok live (e1 ++ e2) = stops_ok live e1 && stops_ok (live_after live e1) e2.
Proof.
  induction e1 as [|e e1 IH]; intros live e2; [reflexivity |].
  destruct e; cbn [app stops_ok live_after]; try apply IH.
  destruct h; cbn [stops_ok live_after]; rewrite IH; [reflexivity |].
  apply andb_assoc.
Qed.

Lemma live_after_app e1 : forall live e2,
  live_after live (e1 ++ e2) = live_after (live_after live e1) e2.
Proof.
  induction e1 as [|e e1 IH]; intros live e2; [reflexivity |].
  destruct e; cbn [app live_after]; try apply IH.
  destruct h; apply IH.
Qed.

Lemma stops_ok_quiet evs : forall live,
  forallb is_quiet evs = true -> stops_ok live evs = true /\ live_after live evs = live.
Proof.
  induction evs as [|e evs IH]; intros live H; [split; reflexivity |].
  cbn [forallb] in H. apply andb_true_iff in H as [He H].
  destruct e; try discriminate He; cbn [stops_ok live_after]; apply IH; exact H.
Qed.

Lemma replays_refl g : replays g g.
Proof. exists []. split; [symmetry; apply app_nil_r |]. split; reflexivity. Qed.

Lemma replays_trans g1 g2 g3 : replays g1 g2 -> replays g2 g3 -> replays g1 g3.
Proof.
  intros (e1 & Ht1 & Hs1 & Hl1) (e2 & Ht2 & Hs2 & Hl2).
  exists (e1 ++ e2). split; [| split].
  - rewrite Ht2, Ht1. symmetry. apply app_assoc.
  - rewrite stops_ok_app, Hs1, Hl1, Hs2. reflexivity.
  - rewrite live_after_app, Hl1, Hl2. reflexivity.
Qed.

Lemma quiet_replays g g' : quiet g g' -> replays g g'.
Proof.
  intros (_ & Hw & _ & evs & Ht & Hq). exists evs. split; [exact Ht |].
  destruct (stops_ok_quiet evs (dom (workers g)) Hq) as [Hs Hl].
  split; [exact Hs |]. rewrite Hl, Hw. reflexivity.
Qed.

(** Stopping the pawn's two handles, when they are null or live and apart,
    is a pair of stops in order. *)
Lemma stop_pair hf hv (ws : gmap nat Worker) rest :
  handle_ok hf ws -> handle_ok hv ws -> handles_apart hf hv ->
  stops_ok (dom ws) (EvStop hf :: EvStop hv :: rest) =
    stops_ok (dom (FThreadedWorker.release hv (FThreadedWorker.release hf ws))) rest /\
  live_after (dom ws) (EvStop hf :: EvStop hv :: rest) =
    live_after (dom (FThreadedWorker.release hv (FThreadedWorker.release hf ws))) rest.
Proof.
  intros Hf Hv Ha.
  destruct hf as [|a], hv as [|b];
    cbn [stops_ok live_after FThreadedWorker.release handle_ok handles_apart] in *;
    rewrite ?dom_delete_L.
  - split; reflexivity.
  - rewrite bool_decide_eq_true_2 by (apply elem_of_dom; exact Hv). split; reflexivity.
  - rewrite bool_decide_eq_true_2 by (apply elem_of_dom; exact Hf). split; reflexivity.
  - rewrite bool_decide_eq_true_2 by (apply elem_of_dom; exact Hf).
    rewrite bool_decide_eq_true_2.
    + split; reflexivity.
    + apply elem_of_difference. split; [apply elem_of_dom; exact Hv |].
      rewrite elem_of_singleton. congruence.
Qed.

Lemma release_is_Some h (ws : gmap nat Worker) id :
  is_Some (FThreadedWorker.release h ws !! id) -> is_Some (ws !! id).
Proof.
  destruct h as [|a]; cbn [FThreadedWorker.release]; [auto |].
  rewrite lookup_delete_is_Some. tauto.
Qed.

Lemma started_wf (ws : gmap nat Worker) n w1 w2 id :
  (forall i, is_Some (ws !! i) -> (i < n)%nat) ->
  is_Some (<[S n := w2]> (<[n := w1]> ws) !! id) -> (id < S (S n))%nat.
Proof.
  intros Hwf. rewrite !lookup_insert_is_Some.
  intros [<- | [_ [<- | [_ H]]]]; [lia | lia |]. apply Hwf in H. lia.
Qed.

Lemma started_handles (ws : gmap nat Worker) n w1 w2 :
  handle_ok (ptr n) (<[S n := w2]> (<[n := w1]> ws)) /\
  handle_ok (ptr (S n)) (<[S n := w2]> (<[n := w1]> ws)) /\
  handles_apart (ptr n) (ptr (S n)).
Proof.
  cbn [handle_ok handles_apart]. rewrite !lookup_insert_is_Some. split; [| split].
  - right. split; [lia |]. left. reflexivity.
  - left. reflexivity.
  - lia.
Qed.

(* ===================================================================== *)
(** ** The handle invariant along executions *)
(* ===================================================================== *)

Lemma BeginPlay_handles name p g p' g' :
  wf g -> BeginPlay name p g = Some (p', g') -> handles_inv p' g' /\ replays g g'.
Proof.
  intros Hwf H. destruct (FString.Contains name "Untitled") eqn:E.
  - rewrite BeginPlay_unselected in H by assumption. injection H as <- <-. split.
    + split; [exact Hwf |]. cbn. discriminate.
    + exists [EvError "NO MAP SELECTED"; EvSuperBeginPlay]. repeat split.
  - rewrite BeginPlay_selected in H by assumption. injection H as <- <-. split.
    + split.
      * intros id. cbn [workers next_worker]. apply started_wf. exact Hwf.
      * intros _. cbn [_flightManager _videoManager set_videoManager set_flightManager workers].
        apply started_handles.
    + eexists. split; [reflexivity |]. split; [reflexivity |].
      cbn [live_after workers]. rewrite !dom_insert_L. reflexivity.
Qed.

Lemma EndPlay_handles p g p' g' :
  handles_inv p g -> EndPlay p g = Some (p', g') -> handles_inv p' g' /\ replays g g'.
Proof.
  intros [Hwf Hh] H. destruct (_mapSelected p) eqn:Hsel.
  - rewrite EndPlay_selected in H by assumption. injection H as <- <-.
    destruct (Hh eq_refl) as (Hf & Hv & Ha). split.
    + split.
      * intros id Hs. cbn [workers next_worker] in *.
        apply Hwf. eapply release_is_Some, release_is_Some. exact Hs.
      * intros _. cbn. auto.
    + eexists. split; [reflexivity |].
      destruct (stop_pair _ _ _ [EvSuperEndPlay] Hf Hv Ha) as [Hs Hl].
      rewrite Hs, Hl. split; reflexivity.
  - rewrite EndPlay_unselected in H by assumption. injection H as <- <-. split.
    + split; [exact Hwf | intros Hs; congruence].
    + exists [EvSuperEndPlay]. repeat split.
Qed.

Lemma Tick_handles dt feed p g p' g' :
  handles_inv p g -> Tick dt feed p g = Some (p', g') -> handles_inv p' g' /\ replays g g'.
Proof.
  intros [Hwf Hh] H.
  apply Tick_inv in H as [(Hsel & -> & ->) | [(Hsel & _ & -> & ->) | H]].
  - split; [split; [exact Hwf | exact Hh] |]. exists [EvSuperTick dt]. repeat split.
  - split; [split; [exact Hwf | exact Hh] |]. exists [EvSuperTick dt]. repeat split.
  - destruct H as (Hsel & _ & p1 & g1 & Hk & Hq & _ & _ & _ & rot & ->).
    destruct (Hh Hsel) as (Hf & Hv & Ha).
    destruct (getKinematics_inv _ _ _ _ Hk) as (fm & w & Hfm & Hw).
    assert (Hq' := Hq). destruct Hq' as (_ & Hws & Hnx & _).
    destruct (k_crashed (feed_kinematics feed)) eqn:Hcr.
    + rewrite (getKinematics_crashed _ _ _ _ _ Hfm Hw Hcr) in Hk. injection Hk as <- <-.
      cbn [workers next_worker] in Hws, Hnx, Hw. split.
      * split.
        -- intros id. rewrite Hws, Hnx. intros Hs. eapply started_wf; [| exact Hs].
           intros i Hi. apply Hwf. apply release_is_Some in Hi.
           apply (release_is_Some (ptr fm)) in Hi. exact Hi.
        -- intros _. cbn [_flightManager _videoManager SetWorldRotation SetActorRotation
                            SetActorLocation set_videoManager set_flightManager].
           rewrite Hws. apply started_handles.
      * eapply replays_trans; [| apply quiet_replays; exact Hq].
        eexists. split; [reflexivity |]. cbn [workers].
        rewrite Hfm in Hf, Ha.
        destruct (stop_pair _ _ _
                    [EvCreate (next_worker g)
                       (FlightManager (frame p) (params p) (_startLocation p) (_startRotation p));
                     EvCreate (S (next_worker g))
                       (VideoManager (_camera1RenderTarget p) (_camera2RenderTarget p))]
                    Hf Hv Ha) as [Hs Hl].
        cbn [stops_ok live_after] in Hs, Hl |- *. rewrite Hs, Hl.
        split; [reflexivity |]. rewrite !dom_insert_L. reflexivity.
    + rewrite (getKinematics_flying _ _ _ _ _ Hfm Hw Hcr) in Hk. injection Hk as <- <-.
      cbn [workers next_worker] in Hws, Hnx, Hw. split.
      * split.
        -- intros id. rewrite Hws, Hnx. apply Hwf.
        -- intros _. cbn [_flightManager _videoManager SetWorldRotation SetActorRotation
                            SetActorLocation set_motorvals].
           rewrite Hws. auto.
      * eapply replays_trans; [| apply quiet_replays; exact Hq].
        exists [EvGetKinematics fm]. repeat split.
Qed.

Lemma step_handles o p g p' g' :
  handles_inv p g -> step o p g = Some (p', g') -> handles_inv p' g' /\ replays g g'.
Proof.
  destruct o as [name | dt feed |]; cbn [step]; intros Hi H.
  - eapply BeginPlay_handles; [apply Hi | exact H].
  - eapply Tick_handles; eassumption.
  - eapply EndPlay_handles; eassumption.
Qed.

Lemma run_handles ops : forall p g p' g',
  handles_inv p g -> run ops p g = Some (p', g') -> handles_inv p' g' /\ replays g g'.
Proof.
  induction ops as [|o ops IH]; intros p g p' g' Hi H; cbn [run] in H.
  - injection H as <- <-. split; [exact Hi | apply replays_refl].
  - apply bind_inv in H as (p1 & g1 & Hs & H).
    destruct (step_handles _ _ _ _ _ Hi Hs) as [Hi1 Hr1].
    destruct (IH _ _ _ _ Hi1 H) as [Hi' Hr'].
    split; [exact Hi' | eapply replays_trans; eassumption].
Qed.

(** From the first [BeginPlay] on, whatever the pawn held before. *)
Lemma run_from_BeginPlay name ops p0 g0 p g :
  wf g0 -> run (OpBeginPlay name :: ops) p0 g0 = Some (p, g) ->
  handles_inv p g /\ replays g0 g.
Proof.
  intros Hwf H. cbn [run step] in H. apply bind_inv in H as (p1 & g1 & Hb & H).
  destruct (BeginPlay_handles _ _ _ _ _ Hwf Hb) as [Hi1 Hr1].
  destruct (run_handles _ _ _ _ _ Hi1 H) as [Hi Hr].
  split; [exact Hi | eapply replays_trans; eassumption].
Qed.

(* ===================================================================== *)
(** ** Stopping the workers *)
(* ===================================================================== *)

(** C3. [stopThreadedWorkers] always returns; afterwards [_flightManager]
    and [_videoManager] hold what the two calls of
    [FThreadedWorker::stopThreadedWorker] returned, which is the null handle,
    so no later call through these fields reaches a worker. *)
Theorem stopThreadedWorkers_nulls_both_handles (p : Pawn) (g : Globals) :
  exists h1 g1 h2 g' p',
    FThreadedWorker.stopThreadedWorker (_flightManager p) g = Some (h1, g1) /\
    FThreadedWorker.stopThreadedWorker (_videoManager p) g1 = Some (h2, g') /\
    stopThreadedWorkers p g = Some (p', g') /\
    _flightManager p' = h1 /\ _videoManager p' = h2 /\
    h1 = nullptr /\ h2 = nullptr /\
    forall g'', deref (_flightManager p') g'' = None /\ deref (_videoManager p') g'' = None.
Proof.
  do 5 eexists. split; [apply stopThreadedWorker_eq |].
  split; [apply stopThreadedWorker_eq |].
  split.
  - rewrite stopThreadedWorkers_eq. cbn. rewrite <- app_assoc. reflexivity.
  - cbn. repeat split.
Qed.

(* ===================================================================== *)
(** ** Map selection *)
(* ===================================================================== *)

(** C8, as stated, fails: the map name "untitled" does not contain the
    substring "Untitled", yet [BeginPlay] treats the map as not selected and
    reports the error, because the engine's [Contains] ignores letter case. *)
Lemma lower_case_untitled_is_not_selected :
  ~ FString.occurs "Untitled" "untitled" /\
  exists p' g',
    BeginPlay "untitled" sample_pawn initial_globals = Some (p', g') /\
    _mapSelected p' = false /\
    trace g' = [EvError "NO MAP SELECTED"; EvSuperBeginPlay].
Proof.
  split.
  - intros H. apply occurs_under_sensitive, Contains_with_spec in H. discriminate H.
  - do 2 eexists. split; [apply BeginPlay_unselected; reflexivity |].
    split; reflexivity.
Qed.

(** C8, amended. [BeginPlay] always returns, and it decides map selection
    from the map's name alone: the map counts as selected if and only if no
    substring of the name equals "Untitled" up to letter case; so a loaded map
    whose name contains "Untitled" in any letter case is treated as the no-map
    error. *)
Theorem map_selected_iff_name_lacks_untitled_ignoring_case
    (mapName : string) (p : Pawn) (g : Globals) :
  exists p' g',
    BeginPlay mapName p g = Some (p', g') /\
    (_mapSelected p' = true <-> ~ FString.occurs_nocase "Untitled" mapName) /\
    (FString.occurs_nocase "Untitled" mapName ->
     _mapSelected p' = false /\
     events_since g g' = [EvError "NO MAP SELECTED"; EvSuperBeginPlay] /\
     workers g' = workers g).
Proof.
  destruct (FString.Contains mapName "Untitled") eqn:E.
  - do 2 eexists. split; [apply BeginPlay_unselected; exact E |].
    apply Contains_nocase in E. split.
    + cbn. split; [discriminate | tauto].
    + intros _. split; [reflexivity |]. split; [| reflexivity].
      apply events_since_app. reflexivity.
  - do 2 eexists. split; [apply BeginPlay_selected; exact E |]. split.
    + cbn. split; [| reflexivity]. intros _ H. apply Contains_nocase in H. congruence.
    + intros H. apply Contains_nocase in H. congruence.
Qed.

(* ===================================================================== *)
(** ** The frame constants *)
(* ===================================================================== *)

Import MultirotorDynamics.

(** C6. Every call of the factory returns a [BigQuadDynamics]
    object, and that object supplies the whole parameter set: thrust
    coefficient, drag coefficient, mass, arm length, the three moments of
    inertia, rotor inertia and max rotor RPM through the overrides written in
    [BigQuadDynamics], with those values whatever the base classes define, and
    the motor-direction table through the override it inherits from its base
    class. *)
Theorem factory_object_supplies_frame_parameters
    (dirs : list Z) (rest : accessor -> option value) (h : Heap) :
  objects (create h).2 !! (create h).1 = Some BigQuadDynamics /\
  (forall q,
     supplies (QuadXAPDynamics_overrides dirs rest) (create h).2 (create h).1 q = true) /\
  (forall a, a <> motorDirection ->
     exists v,
       overrides BigQuadDynamics a = Some v /\ is_positive v = true /\
       forall inherited, call inherited (create h).2 (create h).1 a = Some v) /\
  overrides BigQuadDynamics motorDirection = None /\
  call (QuadXAPDynamics_overrides dirs rest) (create h).2 (create h).1 motorDirection
    = Some (Directions dirs) /\
  map (call (QuadXAPDynamics_overrides dirs rest) (create h).2 (create h).1) accessors =
    [Some (Double 0.0000530216718361085%float); Some (Double 2.23656692806239E-06%float);
     Some (Double 16.47%float); Some (Double 0.6%float);
     Some (Double 2%float); Some (Double 2%float); Some (Double 3%float);
     Some (Double 0.000308013%float); Some (Unsigned 10000); Some (Directions dirs)].
Proof.
  assert (Hobj : objects (create h).2 !! (create h).1 = Some BigQuadDynamics).
  { cbn. apply lookup_insert_eq. }
  split; [exact Hobj |]. split; [| split; [| split; [reflexivity | split]]].
  - intros q. unfold supplies, call. rewrite Hobj. destruct q; reflexivity.
  - intros a Ha.
    destruct a; try contradiction; eexists; (split; [reflexivity |]);
      (split; [reflexivity |]); intros inherited; unfold call; rewrite Hobj; reflexivity.
  - unfold call. rewrite Hobj. reflexivity.
  - unfold call. rewrite Hobj. reflexivity.
Qed.

(* ===================================================================== *)
(** ** No map, no simulation *)
(* ===================================================================== *)

Lemma run_unselected ops : forall p g,
  _mapSelected p = false ->
  forallb (fun o => negb (is_BeginPlay o)) ops = true ->
  run ops p g =
  Some (p, mkGlobals (count g) (rotation g) (workers g) (next_worker g)
             (trace g ++ map super_event ops)).
Proof.
  induction ops as [|o ops IH]; intros p g Hsel Hops.
  - cbn. rewrite app_nil_r. destruct g; reflexivity.
  - cbn [forallb] in Hops. apply andb_true_iff in Hops as [Ho Hops].
    cbn [run]. destruct o as [name | dt feed |]; [discriminate Ho | |]; cbn [step].
    + erewrite bind_Some by (apply Tick_unselected; exact Hsel).
      rewrite IH by assumption. cbn. rewrite <- app_assoc. reflexivity.
    + erewrite bind_Some by (apply EndPlay_unselected; exact Hsel).
      rewrite IH by assumption. cbn. rewrite <- app_assoc. reflexivity.
Qed.

Lemma super_events_inert ops :
  forallb (fun e => negb (is_access e) && negb (is_create e) && negb (is_stop e))
          (map super_event ops) = true.
Proof. induction ops as [|o ops IH]; [reflexivity |]. destruct o; exact IH. Qed.

(** C2. When [BeginPlay] finds no map selected, it reports the error and
    creates no worker, and whatever ticks (and teardown) follow all return
    having done nothing but call the base class: no kinematics read, no
    animation, gimbal or video access, no worker created. *)
Theorem no_map_selected_runs_no_simulation
    (mapName : string) (p0 : Pawn) (g0 : Globals) (ops : list Op) :
  FString.Contains mapName "Untitled" = true ->
  forallb (fun o => negb (is_BeginPlay o)) ops = true ->
  exists p g,
    run (OpBeginPlay mapName :: ops) p0 g0 = Some (p, g) /\
    _mapSelected p = false /\
    workers g = workers g0 /\ next_worker g = next_worker g0 /\ count g = count g0 /\
    events_since g0 g =
      [EvError "NO MAP SELECTED"; EvSuperBeginPlay] ++ map super_event ops /\
    forallb (fun e => negb (is_access e) && negb (is_create e) && negb (is_stop e))
            (events_since g0 g) = true.
Proof.
  intros Hname Hops.
  exists (set_mapSelected false p0),
    (mkGlobals (count g0) (rotation g0) (workers g0) (next_worker g0)
       (trace g0 ++ [EvError "NO MAP SELECTED"; EvSuperBeginPlay] ++ map super_event ops)).
  split.
  - cbn [run step]. erewrite bind_Some by (apply BeginPlay_unselected; exact Hname).
    rewrite run_unselected by (reflexivity || exact Hops).
    cbn [count rotation workers next_worker trace]. rewrite <- app_assoc. reflexivity.
  - erewrite events_since_app by (cbn [trace]; reflexivity).
    repeat split. cbn [app forallb is_access is_create is_stop negb andb].
    apply super_events_inert.
Qed.

Lemma no_map_selected_runs_no_simulation_witness :
  exists p g,
    run (OpBeginPlay "Untitled" :: replicate 12 sample_tick ++ [OpEndPlay])
      sample_pawn initial_globals = Some (p, g) /\
    _mapSelected p = false /\
    workers g = workers initial_globals /\
    next_worker g = next_worker initial_globals /\ count g = count initial_globals /\
    events_since initial_globals g =
      [EvError "NO MAP SELECTED"; EvSuperBeginPlay] ++
      map super_event (replicate 12 sample_tick ++ [OpEndPlay]) /\
    forallb (fun e => negb (is_access e) && negb (is_create e) && negb (is_stop e))
            (events_since initial_globals g) = true.
Proof.
  apply (no_map_selected_runs_no_simulation "Untitled" sample_pawn initial_globals
           (replicate 12 sample_tick ++ [OpEndPlay])); reflexivity.
Defined.

(* ===================================================================== *)
(** ** The tick gate *)
(* ===================================================================== *)

Lemma wrap64_succ_bounds c : 0 <= c -> 0 <= wrap64 (c + 1) <= c + 1.
Proof.
  intros Hc. unfold wrap64. split.
  - apply Z.mod_pos_bound. lia.
  - apply Z.mod_le; lia.
Qed.

Lemma wrap64_add c n : wrap64 (wrap64 (c + 1) + n) = wrap64 (c + (1 + n)).
Proof. unfold wrap64. rewrite Zplus_mod_idemp_l. f_equal. lia. Qed.

Lemma step_at_inv i o scene g scene' g' :
  step_at i o scene g = Some (scene', g') ->
  exists p p', scene !! i = Some p /\ step o p g = Some (p', g') /\ scene' = <[i := p']> scene.
Proof.
  unfold step_at. destruct (scene !! i) as [p|]; [| discriminate].
  intros H. apply bind_inv in H as (p' & g1 & Hs & [= <- <-]). eauto.
Qed.

(** From zero, the counter never runs ahead of the number of ticks. *)
Lemma run_scene_count calls : forall scene g scene' g',
  0 <= count g ->
  run_scene calls scene g = Some (scene', g') ->
  0 <= count g' <= count g + Z.of_nat (ticks calls).
Proof.
  induction calls as [|[i o] calls IH]; intros scene g scene' g' Hc H; cbn [run_scene] in H.
  - injection H as <- <-. unfold ticks. cbn. lia.
  - apply bind_inv in H as (sc1 & g1 & Hs & H).
    apply step_at_inv in Hs as (p & p' & _ & Hs & _).
    apply step_count in Hs.
    assert (0 <= count g1 <= count g + (if is_Tick o then 1 else 0)) as Hc1.
    { rewrite Hs. destruct (is_Tick o); cbn [andb]; [| lia].
      destruct (_mapSelected p); [| lia]. apply wrap64_succ_bounds. exact Hc. }
    apply IH in H; [| lia]. unfold ticks in *. cbn [List.filter snd].
    destruct (is_Tick o); cbn [length]; lia.
Qed.

(** An open tick starts with the kinematics read. *)
Lemma Tick_events dt feed p g p' g' :
  Tick dt feed p g = Some (p', g') ->
  (_mapSelected p && (10 <? count g) = false /\ events_since g g' = [EvSuperTick dt]) \/
  (_mapSelected p && (10 <? count g) = true /\
   exists fm rest, events_since g g' = EvGetKinematics fm :: rest).
Proof.
  intros H. apply Tick_inv in H as [(Hsel & -> & ->) | [(Hsel & Hc & -> & ->) | H]].
  - left. rewrite Hsel. split; [reflexivity |]. apply events_since_app. reflexivity.
  - left. rewrite Hsel. split.
    + cbn. apply Z.ltb_ge. exact Hc.
    + apply events_since_app. reflexivity.
  - right. destruct H as (Hsel & Hc & p1 & g1 & Hk & Hq & _).
    rewrite Hsel. split; [cbn; apply Z.ltb_lt; exact Hc |].
    destruct Hq as (_ & _ & _ & evs & Ht & _).
    destruct (getKinematics_inv _ _ _ _ Hk) as (fm & w & Hfm & Hw).
    exists fm. destruct (k_crashed (feed_kinematics feed)) eqn:Hcr.
    + rewrite (getKinematics_crashed _ _ _ _ _ Hfm Hw Hcr) in Hk. injection Hk as _ <-.
      cbn [trace] in Ht. eexists. apply events_since_app. rewrite Ht, <- app_assoc.
      reflexivity.
    + rewrite (getKinematics_flying _ _ _ _ _ Hfm Hw Hcr) in Hk. injection Hk as _ <-.
      cbn [trace] in Ht. eexists. apply events_since_app. rewrite Ht, <- app_assoc.
      reflexivity.
Qed.

(** C7. In every execution of the process, from the zero-initialised
    counter and over any number of pawn instances: a tick that finds the
    counter at 10 or less returns having only called the base class (no
    kinematics read, no animation, gimbal or video access); the counter is at
    most the number of ticks run so far, so this covers the first 11 ticks;
    and a tick that does any such access found the counter above 10. *)
Theorem early_ticks_do_not_read
    (calls : list (nat * Op)) (scene scene' : list Pawn) (g : Globals)
    (p : Pawn) (dt : F32.t) (feed : Feed) :
  run_scene calls scene initial_globals = Some (scene', g) ->
  (count g <= 10 ->
   exists g', Tick dt feed p g = Some (p, g') /\ events_since g g' = [EvSuperTick dt]) /\
  ((ticks calls <= 10)%nat -> count g <= 10) /\
  (forall p' g',
     Tick dt feed p g = Some (p', g') ->
     existsb is_access (events_since g g') = true -> 10 < count g).
Proof.
  intros Hrun. split; [| split].
  - intros Hc. destruct (_mapSelected p) eqn:Hsel.
    + eexists. split; [apply Tick_early; assumption |]. apply events_since_app. reflexivity.
    + eexists. split; [apply Tick_unselected; assumption |]. apply events_since_app.
      reflexivity.
  - intros Ht. apply run_scene_count in Hrun; [| cbn; lia]. cbn [count initial_globals] in Hrun.
    lia.
  - intros p' g' HT Hacc. apply Tick_events in HT as [(_ & He) | (Hg & _)].
    + rewrite He in Hacc. discriminate Hacc.
    + apply andb_true_iff in Hg as [_ Hg]. apply Z.ltb_lt. exact Hg.
Qed.

Lemma early_ticks_do_not_read_witness :
  exists scene' g p,
    run_scene ((0%nat, OpBeginPlay "FlightMap") :: replicate 10 (0%nat, sample_tick))
      [sample_pawn] initial_globals = Some (scene', g) /\
    scene' !! 0%nat = Some p /\
    (count g <= 10 ->
     exists g', Tick sample_dt sample_feed p g = Some (p, g') /\
                events_since g g' = [EvSuperTick sample_dt]) /\
    ((ticks ((0%nat, OpBeginPlay "FlightMap") :: replicate 10 (0%nat, sample_tick)) <= 10)%nat ->
     count g <= 10) /\
    (forall p' g',
       Tick sample_dt sample_feed p g = Some (p', g') ->
       existsb is_access (events_since g g') = true -> 10 < count g).
Proof.
  do 3 eexists. split; [vm_compute; reflexivity |].
  split; [reflexivity |].
  eapply (early_ticks_do_not_read
            ((0%nat, OpBeginPlay "FlightMap") :: replicate 10 (0%nat, sample_tick))
            [sample_pawn]).
  vm_compute. reflexivity.
Defined.

Lemma wrap64_range c : 0 <= wrap64 c < 2 ^ 64.
Proof. unfold wrap64. apply Z.mod_pos_bound. lia. Qed.

(** Ticks of instance [i] leave instance [j] as it was and advance the
    counter by their number. *)
Lemma run_scene_ticks_of_one ops : forall scene g scene' g' i j pi pj,
  i <> j -> forallb is_Tick ops = true ->
  scene !! i = Some pi -> scene !! j = Some pj -> _mapSelected pi = true ->
  0 <= count g < 2 ^ 64 ->
  run_scene (map (pair i) ops) scene g = Some (scene', g') ->
  scene' !! j = Some pj /\ count g' = wrap64 (count g + Z.of_nat (length ops)).
Proof.
  induction ops as [|o ops IH]; intros scene g scene' g' i j pi pj Hij Hops Hi Hj Hsel Hc H.
  - cbn in H. injection H as <- <-. split; [exact Hj |].
    cbn. rewrite Z.add_0_r. unfold wrap64. symmetry. apply Z.mod_small. exact Hc.
  - cbn [forallb] in Hops. apply andb_true_iff in Hops as [Ho Hops].
    cbn [map run_scene] in H. apply bind_inv in H as (sc1 & g1 & Hs & H).
    apply step_at_inv in Hs as (p & p' & Hp & Hs & ->).
    rewrite Hi in Hp. injection Hp as <-.
    destruct o as [name | dt feed |]; try discriminate Ho. cbn [step] in Hs.
    pose proof (Tick_count _ _ _ _ _ _ Hs) as Hc1. rewrite Hsel in Hc1.
    pose proof (Tick_config _ _ _ _ _ _ Hs) as (_ & _ & _ & _ & Hsel' & _).
    eapply (IH _ _ _ _ i j p' pj) in H; try assumption.
    + destruct H as [Hj' Hc']. split; [exact Hj' |].
      rewrite Hc', Hc1, wrap64_add. f_equal. cbn [length]. lia.
    + apply list_lookup_insert_eq. eapply lookup_lt_Some. exact Hi.
    + rewrite list_lookup_insert_ne by exact Hij. exact Hj.
    + congruence.
    + rewrite Hc1. apply wrap64_range.
Qed.

(** C9, as stated, fails: not every tick of either instance advances the
    counter. Of two instances in one process, the first begun on an untitled
    map and the second on a flight map, twenty ticks of the first leave the
    counter at zero, and the following tick of the second performs no
    kinematics read. *)
Lemma ticks_of_a_map_less_instance_leave_the_counter :
  exists scene g scene' g' pa pb r,
    run_scene [(0%nat, OpBeginPlay "Untitled"); (1%nat, OpBeginPlay "FlightMap")]
      [sample_pawn; sample_pawn] initial_globals = Some (scene, g) /\
    scene !! 0%nat = Some pa /\ _mapSelected pa = false /\
    scene !! 1%nat = Some pb /\ _mapSelected pb = true /\
    run_scene (map (pair 0%nat) (replicate 20 sample_tick)) scene g = Some (scene', g') /\
    ticks (map (pair 0%nat) (replicate 20 sample_tick)) = 20%nat /\
    count g = 0 /\ count g' = 0 /\
    Tick sample_dt sample_feed pb g' = Some r /\
    existsb is_read (events_since g' r.2) = false.
Proof.
  do 7 eexists. split; [vm_compute; reflexivity |].
  split; [reflexivity |]. split; [reflexivity |].
  split; [reflexivity |]. split; [reflexivity |].
  split; [vm_compute; reflexivity |].
  split; [reflexivity |]. split; [reflexivity |]. split; [reflexivity |].
  split; vm_compute; reflexivity.
Qed.

(** C9, amended. The gate counter is one variable of the process, never
    reset: every tick of an instance whose map is selected advances the
    counter that gates every other instance, so whether a tick of a
    map-selected instance [j] reads the kinematics is decided by how many
    ticks the map-selected instance [i] has run; and no operation ever does
    anything to the counter but leave it or add one (modulo 2^64). *)
Theorem tick_counter_is_shared_between_instances
    (scene : list Pawn) (g : Globals) (i j : nat) (pi pj : Pawn)
    (ops : list Op) (scene' : list Pawn) (g' : Globals) (dt : F32.t) (feed : Feed) :
  i <> j ->
  scene !! i = Some pi -> scene !! j = Some pj ->
  _mapSelected pi = true -> _mapSelected pj = true ->
  0 <= count g < 2 ^ 64 ->
  forallb is_Tick ops = true ->
  run_scene (map (pair i) ops) scene g = Some (scene', g') ->
  scene' !! j = Some pj /\
  count g' = wrap64 (count g + Z.of_nat (length ops)) /\
  (forall pj' g'',
     Tick dt feed pj g' = Some (pj', g'') ->
     existsb is_read (events_since g' g'') =
       (10 <? wrap64 (count g + Z.of_nat (length ops)))) /\
  (forall o p h p' h',
     step o p h = Some (p', h') ->
     count h' = count h \/ count h' = wrap64 (count h + 1)).
Proof.
  intros Hij Hi Hj Hseli Hselj Hc Hops Hrun.
  destruct (run_scene_ticks_of_one _ _ _ _ _ _ _ _ _ Hij Hops Hi Hj Hseli Hc Hrun)
    as [Hj' Hc'].
  split; [exact Hj' |]. split; [exact Hc' |]. split.
  - intros pj' g'' HT. rewrite <- Hc'.
    apply Tick_events in HT as [(Hg & He) | (Hg & fm & rest & He)];
      rewrite Hselj in Hg; cbn [andb] in Hg; rewrite He, Hg; reflexivity.
  - intros o p h p' h' Hs. apply step_count in Hs. rewrite Hs.
    destruct (is_Tick o && _mapSelected p); auto.
Qed.

Lemma tick_counter_is_shared_between_instances_witness :
  exists scene g pa pb scene' g',
    run_scene [(0%nat, OpBeginPlay "FlightMap"); (1%nat, OpBeginPlay "FlightMap")]
      [sample_pawn; sample_pawn] initial_globals = Some (scene, g) /\
    scene !! 0%nat = Some pa /\ scene !! 1%nat = Some pb /\
    run_scene (map (pair 0%nat) (replicate 11 sample_tick)) scene g = Some (scene', g') /\
    scene' !! 1%nat = Some pb /\
    count g' = wrap64 (count g + Z.of_nat (length (replicate 11 sample_tick))) /\
    (forall pj' g'',
       Tick sample_dt sample_feed pb g' = Some (pj', g'') ->
       existsb is_read (events_since g' g'') =
         (10 <? wrap64 (count g + Z.of_nat (length (replicate 11 sample_tick))))) /\
    (forall o p h p' h',
       step o p h = Some (p', h') ->
       count h' = count h \/ count h' = wrap64 (count h + 1)).
Proof.
  do 6 eexists. split; [vm_compute; reflexivity |].
  lazymatch goal with
  | |- ?sc !! _ = _ /\ _ =>
      split; [reflexivity |]; split; [reflexivity |];
      split; [vm_compute; reflexivity |];
      eapply (tick_counter_is_shared_between_instances sc _ 0%nat 1%nat _ _
                (replicate 11 sample_tick) _ _ sample_dt sample_feed)
  end.
  - discriminate.
  - reflexivity.
  - reflexivity.
  - reflexivity.
  - reflexivity.
  - cbn [count]. split; [lia | reflexivity].
  - reflexivity.
  - vm_compute. reflexivity.
Defined.

(** The same tick of the second instance, before and after eleven ticks
    of the first: closed, then open. *)
Example second_instance_gate_depends_on_first :
  exists scene g scene' g' pb r0 r11,
    run_scene [(0%nat, OpBeginPlay "FlightMap"); (1%nat, OpBeginPlay "FlightMap")]
      [sample_pawn; sample_pawn] initial_globals = Some (scene, g) /\
    scene !! 1%nat = Some pb /\
    run_scene (map (pair 0%nat) (replicate 11 sample_tick)) scene g = Some (scene', g') /\
    Tick sample_dt sample_feed pb g = Some r0 /\
    Tick sample_dt sample_feed pb g' = Some r11 /\
    existsb is_read (events_since g r0.2) = false /\
    existsb is_read (events_since g' r11.2) = true.
Proof.
  do 7 eexists. split; [vm_compute; reflexivity |].
  split; [reflexivity |].
  split; [vm_compute; reflexivity |].
  split; [vm_compute; reflexivity |].
  split; [vm_compute; reflexivity |].
  split; vm_compute; reflexivity.
Qed.

(* ===================================================================== *)
(** ** An open tick: one read, applied to the actor and to the effects *)
(* ===================================================================== *)

Lemma filter_all {A} (f : A -> bool) l :
  Forall (fun x => f x = true) l -> List.filter f l = l.
Proof.
  induction 1 as [|x l Hx _ IH]; [reflexivity |]. cbn. rewrite Hx, IH. reflexivity.
Qed.

Lemma filter_none {A} (f : A -> bool) l :
  Forall (fun x => f x = false) l -> List.filter f l = [].
Proof.
  induction 1 as [|x l Hx _ IH]; [reflexivity |]. cbn. rewrite Hx, IH. reflexivity.
Qed.

Lemma Forall_imap_all {A B} (P : B -> Prop) (l : list A) : forall (f : nat -> A -> B),
  (forall i x, P (f i x)) -> Forall P (imap f l).
Proof.
  induction l as [|x l IH]; intros f Hf; cbn; constructor; [apply Hf |].
  apply IH. intros i y. apply Hf.
Qed.

Lemma animation_events_kind f vals rot :
  Forall (fun e => is_animation e = true) (animation_events f vals rot) /\
  Forall (fun e => is_read e = false) (animation_events f vals rot).
Proof.
  unfold animation_events.
  split; apply Forall_app; (split; [repeat constructor |]);
    (destruct (F32.gtb _ _); [| constructor]);
    unfold prop_rotations; apply Forall_imap_all; reflexivity.
Qed.

(** The events of an open tick, sorted out. *)
Lemma open_tick_events (pre post anim : list Event) :
  Forall (fun e => is_animation e = false) pre ->
  Forall (fun e => is_animation e = false) post ->
  Forall (fun e => is_animation e = true) anim ->
  List.filter is_animation (pre ++ anim ++ post) = anim.
Proof.
  intros Hpre Hpost Hanim. rewrite !List.filter_app.
  rewrite (filter_none _ _ Hpre), (filter_none _ _ Hpost), (filter_all _ _ Hanim).
  cbn. apply app_nil_r.
Qed.

(** What an open tick does, on a pawn whose workers are alive and whose
    prop slots are filled. *)
Lemma open_tick_effects
    (dt : F32.t) (feed : Feed) (p : Pawn) (g : Globals) (fm vm : nat) :
  _mapSelected p = true -> 10 < count g ->
  _flightManager p = ptr fm -> _videoManager p = ptr vm ->
  is_Some (workers g !! fm) -> is_Some (workers g !! vm) ->
  (nmotors (frame p) <= length (k_motorvals (feed_kinematics feed)))%nat ->
  (nmotors (frame p) <= length (motordirs (frame p)))%nat ->
  props_bound p = true ->
  exists p' g',
    Tick dt feed p g = Some (p', g') /\
    List.filter is_read (events_since g g') = [EvGetKinematics fm] /\
    actorLocation p' = k_location (feed_kinematics feed) /\
    actorRotation p' = k_rotation (feed_kinematics feed) /\
    _motorvals p' = k_motorvals (feed_kinematics feed) /\
    List.filter is_animation (events_since g g') =
      animation_events (frame p) (k_motorvals (feed_kinematics feed)) (rotation g) /\
    rotation g' = next_rotation (frame p) (k_motorvals (feed_kinematics feed)) (rotation g).
Proof.
  intros Hsel Hc Hfm Hvm [w1 Hw1] [w2 Hw2] Hv Hd Hb.
  destruct (animation_events_kind (frame p) (k_motorvals (feed_kinematics feed)) (rotation g))
    as [Hanim Hnoread].
  destruct (k_crashed (feed_kinematics feed)) eqn:Hcr.
  - do 2 eexists. split; [eapply Tick_crashed; eassumption |].
    erewrite events_since_app by (cbn [trace]; reflexivity).
    split; [| split; [reflexivity | split; [reflexivity | split; [reflexivity | split]]]].
    + rewrite !List.filter_app, (filter_none _ _ Hnoread). reflexivity.
    + apply open_tick_events; [repeat constructor | repeat constructor | exact Hanim].
    + reflexivity.
  - do 2 eexists. split; [eapply Tick_flying; eassumption |].
    erewrite events_since_app by (cbn [trace]; reflexivity).
    split; [| split; [reflexivity | split; [reflexivity | split; [reflexivity | split]]]].
    + rewrite !List.filter_app, (filter_none _ _ Hnoread). reflexivity.
    + apply open_tick_events; [repeat constructor | repeat constructor | exact Hanim].
    + reflexivity.
Qed.

(** C5. A tick that passes the gate, on a pawn whose workers are alive
    and whose first [nmotors] prop slots each hold a mesh (so that the calls
    through [_propMeshes[j]] are defined), returns after exactly one kinematics
    read; the actor's location and
    rotation are the ones that read returned, the motor values it returned are
    the pawn's motor values, and the audio and propeller effects of this tick
    are computed from them. *)
Theorem open_tick_reads_once_and_applies_the_snapshot
    (dt : F32.t) (feed : Feed) (p : Pawn) (g : Globals) (fm vm : nat) :
  _mapSelected p = true -> 10 < count g ->
  _flightManager p = ptr fm -> _videoManager p = ptr vm ->
  is_Some (workers g !! fm) -> is_Some (workers g !! vm) ->
  (nmotors (frame p) <= length (k_motorvals (feed_kinematics feed)))%nat ->
  (nmotors (frame p) <= length (motordirs (frame p)))%nat ->
  props_bound p = true ->
  exists p' g',
    Tick dt feed p g = Some (p', g') /\
    List.filter is_read (events_since g g') = [EvGetKinematics fm] /\
    actorLocation p' = k_location (feed_kinematics feed) /\
    actorRotation p' = k_rotation (feed_kinematics feed) /\
    _motorvals p' = k_motorvals (feed_kinematics feed) /\
    List.filter is_animation (events_since g g') =
      animation_events (frame p) (k_motorvals (feed_kinematics feed)) (rotation g).
Proof.
  intros Hsel Hc Hfm Hvm Hw1 Hw2 Hv Hd Hb.
  destruct (open_tick_effects dt feed p g fm vm Hsel Hc Hfm Hvm Hw1 Hw2 Hv Hd Hb)
    as (p' & g' & HT & Hr & Hl & Hro & Hm & Ha & _).
  exists p', g'. auto 10.
Qed.

Lemma open_tick_reads_once_and_applies_the_snapshot_witness :
  exists p g,
    run (OpBeginPlay "FlightMap" :: replicate 11 sample_tick) sample_pawn initial_globals
      = Some (p, g) /\
    exists p' g',
      Tick sample_dt sample_feed p g = Some (p', g') /\
      List.filter is_read (events_since g g') = [EvGetKinematics 0%nat] /\
      actorLocation p' = k_location sample_flying /\
      actorRotation p' = k_rotation sample_flying /\
      _motorvals p' = k_motorvals sample_flying /\
      List.filter is_animation (events_since g g') =
        animation_events (frame p) (k_motorvals sample_flying) (rotation g).
Proof.
  do 2 eexists. split; [vm_compute; reflexivity |].
  apply (open_tick_reads_once_and_applies_the_snapshot sample_dt sample_feed _ _ 0%nat 1%nat);
    try reflexivity; eexists; vm_compute; reflexivity.
Defined.

(* ===================================================================== *)
(** ** Audio and propellers *)
(* ===================================================================== *)

Lemma prop_rotations_lookup dirs rot j dir :
  dirs !! j = Some dir ->
  prop_rotations dirs rot !! j =
  Some (EvPropRotation j
          (mkFRotator F32.zero (F32.mul (F32.mul rot (F32.of_Z dir)) (F32.of_Z 100)) F32.zero)).
Proof.
  intros H. unfold prop_rotations. rewrite list_lookup_imap, H. reflexivity.
Qed.

(** C10. On a tick that passes the gate, on a pawn whose workers are
    alive and whose first [nmotors] prop slots each hold a mesh (so that the
    calls through [_propMeshes[j]] are defined), the audio parameters "pitch" and
    "volume" are both set to the arithmetic mean of the frame's [nmotors] motor
    values; the propeller meshes are turned exactly when that mean is strictly
    positive, prop [j] to the yaw [rotation * motordirs[j] * 100], and the
    static rotation then advances by one; otherwise no prop is turned. *)
Theorem open_tick_animation_follows_motor_mean
    (dt : F32.t) (feed : Feed) (p : Pawn) (g : Globals) (fm vm : nat) :
  _mapSelected p = true -> 10 < count g ->
  _flightManager p = ptr fm -> _videoManager p = ptr vm ->
  is_Some (workers g !! fm) -> is_Some (workers g !! vm) ->
  (nmotors (frame p) <= length (k_motorvals (feed_kinematics feed)))%nat ->
  (nmotors (frame p) <= length (motordirs (frame p)))%nat ->
  props_bound p = true ->
  exists p' g' mean,
    Tick dt feed p g = Some (p', g') /\
    mean = arithmetic_mean (take (nmotors (frame p)) (k_motorvals (feed_kinematics feed))) /\
    List.filter is_animation (events_since g g') =
      [EvAudioParameter "pitch" mean; EvAudioParameter "volume" mean] ++
      (if F32.gtb mean F32.zero
       then prop_rotations (take (nmotors (frame p)) (motordirs (frame p))) (rotation g)
       else []) /\
    rotation g' =
      (if F32.gtb mean F32.zero then F32.add (rotation g) (F32.of_Z 1) else rotation g) /\
    (forall j dir,
       (j < nmotors (frame p))%nat -> motordirs (frame p) !! j = Some dir ->
       prop_rotations (take (nmotors (frame p)) (motordirs (frame p))) (rotation g) !! j =
       Some (EvPropRotation j
               (mkFRotator F32.zero
                  (F32.mul (F32.mul (rotation g) (F32.of_Z dir)) (F32.of_Z 100))
                  F32.zero))) /\
    length (prop_rotations (take (nmotors (frame p)) (motordirs (frame p))) (rotation g))
      = nmotors (frame p).
Proof.
  intros Hsel Hc Hfm Hvm Hw1 Hw2 Hv Hd Hb.
  destruct (open_tick_effects dt feed p g fm vm Hsel Hc Hfm Hvm Hw1 Hw2 Hv Hd Hb)
    as (p' & g' & HT & _ & _ & _ & _ & Ha & Hrot).
  exists p', g', (motormean (frame p) (k_motorvals (feed_kinematics feed))).
  split; [exact HT |]. split; [reflexivity |]. split; [exact Ha |]. split; [exact Hrot |].
  split.
  - intros j dir Hj Hdir. apply prop_rotations_lookup.
    rewrite lookup_take_lt by exact Hj. exact Hdir.
  - unfold prop_rotations. rewrite length_imap, length_take. lia.
Qed.

Lemma open_tick_animation_follows_motor_mean_witness :
  exists p g,
    run (OpBeginPlay "FlightMap" :: replicate 12 sample_tick) sample_pawn initial_globals
      = Some (p, g) /\
    exists p' g' mean,
      Tick sample_dt sample_feed p g = Some (p', g') /\
      mean = arithmetic_mean (take (nmotors (frame p)) (k_motorvals sample_flying)) /\
      List.filter is_animation (events_since g g') =
        [EvAudioParameter "pitch" mean; EvAudioParameter "volume" mean] ++
        (if F32.gtb mean F32.zero
         then prop_rotations (take (nmotors (frame p)) (motordirs (frame p))) (rotation g)
         else []) /\
      rotation g' =
        (if F32.gtb mean F32.zero then F32.add (rotation g) (F32.of_Z 1) else rotation g) /\
      (forall j dir,
         (j < nmotors (frame p))%nat -> motordirs (frame p) !! j = Some dir ->
         prop_rotations (take (nmotors (frame p)) (motordirs (frame p))) (rotation g) !! j =
         Some (EvPropRotation j
                 (mkFRotator F32.zero
                    (F32.mul (F32.mul (rotation g) (F32.of_Z dir)) (F32.of_Z 100))
                    F32.zero))) /\
      length (prop_rotations (take (nmotors (frame p)) (motordirs (frame p))) (rotation g))
        = nmotors (frame p).
Proof.
  do 2 eexists. split; [vm_compute; reflexivity |].
  apply (open_tick_animation_follows_motor_mean sample_dt sample_feed _ _ 0%nat 1%nat);
    try reflexivity; eexists; vm_compute; reflexivity.
Defined.

(** Motor values 1, 1, 0, 0 have mean one half; with the static rotation at
    one, the four props turn to yaw +100, -100, -100, +100. *)
Example sample_animation :
  animation_events sample_frame (k_motorvals sample_flying) (F32.of_Z 1) =
  [EvAudioParameter "pitch" (F32.div (F32.of_Z 1) (F32.of_Z 2));
   EvAudioParameter "volume" (F32.div (F32.of_Z 1) (F32.of_Z 2));
   EvPropRotation 0 (mkFRotator F32.zero (F32.of_Z 100) F32.zero);
   EvPropRotation 1 (mkFRotator F32.zero (F32.of_Z (-100)) F32.zero);
   EvPropRotation 2 (mkFRotator F32.zero (F32.of_Z (-100)) F32.zero);
   EvPropRotation 3 (mkFRotator F32.zero (F32.of_Z 100) F32.zero)].
Proof. vm_compute. reflexivity. Qed.

(** All motors at rest: mean zero, the props stay put. *)
Example sample_animation_at_rest :
  animation_events sample_frame (k_motorvals sample_crashed) (F32.of_Z 1) =
  [EvAudioParameter "pitch" F32.zero; EvAudioParameter "volume" F32.zero].
Proof. vm_compute. reflexivity. Qed.

(* ===================================================================== *)
(** ** Crash and restart *)
(* ===================================================================== *)

Lemma run_config ops : forall p g p' g',
  forallb (fun o => negb (is_BeginPlay o)) ops = true ->
  run ops p g = Some (p', g') -> same_config p p'.
Proof.
  induction ops as [|o ops IH]; intros p g p' g' Hops H; cbn [run] in H.
  - injection H as <- _. apply same_config_refl.
  - cbn [forallb] in Hops. apply andb_true_iff in Hops as [Ho Hops].
    apply bind_inv in H as (p1 & g1 & Hs & H).
    eapply same_config_trans.
    + eapply step_config; [| exact Hs]. destruct (is_BeginPlay o); [discriminate | reflexivity].
    + eapply IH; eassumption.
Qed.

Lemma quiet_seeded loc rot evs :
  forallb is_quiet evs = true -> Forall (seeded_with loc rot) evs.
Proof.
  induction evs as [|e evs IH]; intros H; constructor.
  - cbn [forallb] in H. apply andb_true_iff in H as [He _].
    destruct e; try exact I. discriminate He.
  - cbn [forallb] in H. apply andb_true_iff in H as [_ H]. apply IH. exact H.
Qed.

(** Ticks and teardown create flight managers only with the stored start pose. *)
Lemma step_seeded o p g p' g' :
  is_BeginPlay o = false -> step o p g = Some (p', g') ->
  exists evs, trace g' = trace g ++ evs /\
    Forall (seeded_with (_startLocation p) (_startRotation p)) evs.
Proof.
  destruct o as [name | dt feed |]; cbn [step is_BeginPlay]; intros Hb H; [discriminate | |].
  - apply Tick_inv in H as [(_ & _ & ->) | [(_ & _ & _ & ->) | H]].
    + exists [EvSuperTick dt]. split; [reflexivity | repeat constructor].
    + exists [EvSuperTick dt]. split; [reflexivity | repeat constructor].
    + destruct H as (_ & _ & p1 & g1 & Hk & (_ & _ & _ & evs & Ht & Hq) & _).
      destruct (getKinematics_inv _ _ _ _ Hk) as (fm & w & Hfm & Hw).
      destruct (k_crashed (feed_kinematics feed)) eqn:Hcr.
      * rewrite (getKinematics_crashed _ _ _ _ _ Hfm Hw Hcr) in Hk. injection Hk as _ <-.
        cbn [trace] in Ht. eexists. split; [rewrite Ht, <- app_assoc; reflexivity |].
        apply Forall_app. split; [| apply quiet_seeded; exact Hq].
        repeat constructor.
      * rewrite (getKinematics_flying _ _ _ _ _ Hfm Hw Hcr) in Hk. injection Hk as _ <-.
        cbn [trace] in Ht. eexists. split; [rewrite Ht, <- app_assoc; reflexivity |].
        apply Forall_app. split; [| apply quiet_seeded; exact Hq].
        repeat constructor.
  - destruct (_mapSelected p) eqn:Hsel.
    + rewrite EndPlay_selected in H by assumption. injection H as _ <-.
      eexists. split; [reflexivity | repeat constructor].
    + rewrite EndPlay_unselected in H by assumption. injection H as _ <-.
      eexists. split; [reflexivity | repeat constructor].
Qed.

Lemma run_seeded ops : forall p g p' g',
  forallb (fun o => negb (is_BeginPlay o)) ops = true ->
  run ops p g = Some (p', g') ->
  exists evs, trace g' = trace g ++ evs /\
    Forall (seeded_with (_startLocation p) (_startRotation p)) evs.
Proof.
  induction ops as [|o ops IH]; intros p g p' g' Hops H; cbn [run] in H.
  - injection H as _ <-. exists []. split; [symmetry; apply app_nil_r | constructor].
  - cbn [forallb] in Hops. apply andb_true_iff in Hops as [Ho Hops].
    apply bind_inv in H as (p1 & g1 & Hs & H).
    assert (is_BeginPlay o = false) as Hb by (destruct (is_BeginPlay o); [discriminate | reflexivity]).
    destruct (step_seeded _ _ _ _ _ Hb Hs) as (e1 & Ht1 & Hf1).
    destruct (step_config _ _ _ _ _ Hb Hs) as (_ & _ & _ & _ & _ & Hl & Hr).
    destruct (IH _ _ _ _ Hops H) as (e2 & Ht2 & Hf2).
    rewrite Hl, Hr in Hf2.
    exists (e1 ++ e2). split; [rewrite Ht2, Ht1; symmetry; apply app_assoc |].
    apply Forall_app. split; assumption.
Qed.

(** C1. After [BeginPlay] on a selected map, whatever ticks (crashes
    included) and teardown follow: the stored start pose is still the actor's
    pose at [BeginPlay], and every flight manager created so far was seeded
    with it; and when the kinematics read then observes a crash, the pawn stops
    both workers and creates two fresh ones, the new flight manager seeded with
    that same pose, the old workers no longer alive, the stored start pose
    unchanged. *)
Theorem crash_restart_reseeds_with_begin_play_pose
    (mapName : string) (p0 : Pawn) (g0 : Globals) (ops : list Op)
    (p : Pawn) (g : Globals) (k : Kinematics) (fm : nat) :
  wf g0 ->
  FString.Contains mapName "Untitled" = false ->
  forallb (fun o => negb (is_BeginPlay o)) ops = true ->
  run (OpBeginPlay mapName :: ops) p0 g0 = Some (p, g) ->
  _flightManager p = ptr fm ->
  k_crashed k = true ->
  _startLocation p = actorLocation p0 /\ _startRotation p = actorRotation p0 /\
  Forall (seeded_with (actorLocation p0) (actorRotation p0)) (events_since g0 g) /\
  exists p' g',
    getKinematics k p g = Some (p', g') /\
    events_since g g' =
      [EvGetKinematics fm; EvStop (ptr fm); EvStop (_videoManager p);
       EvCreate (next_worker g)
         (FlightManager (frame p0) (params p0) (actorLocation p0) (actorRotation p0));
       EvCreate (S (next_worker g))
         (VideoManager (_camera1RenderTarget p0) (_camera2RenderTarget p0))] /\
    _flightManager p' = ptr (next_worker g) /\
    _videoManager p' = ptr (S (next_worker g)) /\
    workers g' !! next_worker g =
      Some (FlightManager (frame p0) (params p0) (actorLocation p0) (actorRotation p0)) /\
    workers g' !! S (next_worker g) =
      Some (VideoManager (_camera1RenderTarget p0) (_camera2RenderTarget p0)) /\
    workers g' !! fm = None /\
    (forall vm, _videoManager p = ptr vm -> workers g' !! vm = None) /\
    _startLocation p' = actorLocation p0 /\ _startRotation p' = actorRotation p0.
Proof.
  intros Hwf Hname Hops Hrun Hfm Hcr.
  destruct (run_from_BeginPlay _ _ _ _ _ _ Hwf Hrun) as [[Hwfg Hh] _].
  cbn [run step] in Hrun. apply bind_inv in Hrun as (p1 & g1 & Hb & Hr).
  rewrite BeginPlay_selected in Hb by assumption. injection Hb as <- <-.
  pose proof (run_config _ _ _ _ _ Hops Hr) as (Hfr & Hpa & Hc1 & Hc2 & Hsel & Hl & Hro).
  destruct (run_seeded _ _ _ _ _ Hops Hr) as (evs & Ht & Hf).
  cbn [frame params _camera1RenderTarget _camera2RenderTarget _mapSelected _startLocation
       _startRotation set_videoManager set_flightManager set_start set_mapSelected trace]
    in Hfr, Hpa, Hc1, Hc2, Hsel, Hl, Hro, Ht, Hf.
  destruct (Hh Hsel) as (Hokf & Hokv & Hap).
  rewrite Hfm in Hokf, Hap. destruct Hokf as [w Hw].
  split; [exact Hl |]. split; [exact Hro |]. split.
  { erewrite events_since_app by (rewrite Ht, <- app_assoc; reflexivity).
    apply Forall_app. split; [| exact Hf]. repeat constructor. }
  do 2 eexists. split; [apply (getKinematics_crashed _ _ _ _ _ Hfm Hw Hcr) |].
  rewrite Hfr, Hpa, Hc1, Hc2, Hl, Hro.
  assert (fm < next_worker g)%nat as Hlt by (apply Hwfg; eauto).
  split; [apply events_since_app; reflexivity |].
  split; [reflexivity |]. split; [reflexivity |].
  cbn [workers _startLocation _startRotation SetActorRotation SetActorLocation
       set_videoManager set_flightManager set_motorvals].
  split; [rewrite lookup_insert_ne by lia; apply lookup_insert_eq |].
  split; [apply lookup_insert_eq |].
  split; [| split; [| split; assumption]].
  - rewrite !lookup_insert_ne by lia.
    destruct (_videoManager p) as [|vm]; cbn [FThreadedWorker.release handles_apart] in *.
    + apply lookup_delete_eq.
    + rewrite lookup_delete_ne by congruence. apply lookup_delete_eq.
  - intros vm Hvm. rewrite Hvm in Hokv |- *. cbn [handle_ok] in Hokv.
    assert (vm < next_worker g)%nat by (apply Hwfg; exact Hokv).
    rewrite !lookup_insert_ne by lia. cbn [FThreadedWorker.release]. apply lookup_delete_eq.
Qed.

Lemma wf_initial : wf initial_globals.
Proof. intros id [w Hw]. cbn in Hw. rewrite lookup_empty in Hw. discriminate Hw. Qed.

Lemma crash_restart_reseeds_with_begin_play_pose_witness :
  exists p g,
    run (OpBeginPlay "FlightMap" ::
         replicate 11 sample_tick ++ [OpTick sample_dt sample_crash_feed; sample_tick])
      sample_pawn initial_globals = Some (p, g) /\
    _startLocation p = sample_location /\ _startRotation p = sample_rotation /\
    Forall (seeded_with sample_location sample_rotation) (events_since initial_globals g) /\
    exists p' g',
      getKinematics sample_crashed p g = Some (p', g') /\
      events_since g g' =
        [EvGetKinematics 2%nat; EvStop (ptr 2%nat); EvStop (_videoManager p);
         EvCreate (next_worker g)
           (FlightManager (frame sample_pawn) (params sample_pawn)
              sample_location sample_rotation);
         EvCreate (S (next_worker g))
           (VideoManager (_camera1RenderTarget sample_pawn) (_camera2RenderTarget sample_pawn))] /\
      _flightManager p' = ptr (next_worker g) /\
      _videoManager p' = ptr (S (next_worker g)) /\
      workers g' !! next_worker g =
        Some (FlightManager (frame sample_pawn) (params sample_pawn)
                sample_location sample_rotation) /\
      workers g' !! S (next_worker g) =
        Some (VideoManager (_camera1RenderTarget sample_pawn)
                (_camera2RenderTarget sample_pawn)) /\
      workers g' !! 2%nat = None /\
      (forall vm, _videoManager p = ptr vm -> workers g' !! vm = None) /\
      _startLocation p' = sample_location /\ _startRotation p' = sample_rotation.
Proof.
  do 2 eexists. split; [vm_compute; reflexivity |].
  eapply (crash_restart_reseeds_with_begin_play_pose "FlightMap" sample_pawn initial_globals
            (replicate 11 sample_tick ++ [OpTick sample_dt sample_crash_feed; sample_tick])
            _ _ sample_crashed 2%nat).
  - exact wf_initial.
  - reflexivity.
  - reflexivity.
  - vm_compute. reflexivity.
  - reflexivity.
  - reflexivity.
Defined.

(* ===================================================================== *)
(** ** Teardown *)
(* ===================================================================== *)

(** C4. In every execution that starts with [BeginPlay], whatever the pawn
    held before and whatever calls follow: each stop is applied to the null
    handle or to a worker that is alive at that moment (created, not yet
    stopped); in a state where no map is selected [EndPlay] returns without
    stopping anything; and when the map was not selected in the first place,
    nothing is ever created or stopped. *)
Theorem stops_only_reach_live_or_null_handles
    (mapName : string) (p0 : Pawn) (g0 : Globals) (ops : list Op) (p : Pawn) (g : Globals) :
  wf g0 ->
  run (OpBeginPlay mapName :: ops) p0 g0 = Some (p, g) ->
  stops_ok (dom (workers g0)) (events_since g0 g) = true /\
  (_mapSelected p = false ->
   exists g', EndPlay p g = Some (p, g') /\
              events_since g g' = [EvSuperEndPlay] /\ workers g' = workers g) /\
  (FString.Contains mapName "Untitled" = true ->
   forallb (fun o => negb (is_BeginPlay o)) ops = true ->
   _mapSelected p = false /\
   forallb (fun e => negb (is_create e) && negb (is_stop e)) (events_since g0 g) = true).
Proof.
  intros Hwf Hrun. split; [| split].
  - destruct (run_from_BeginPlay _ _ _ _ _ _ Hwf Hrun) as [_ (evs & Ht & Hs & _)].
    rewrite (events_since_app _ _ _ Ht). exact Hs.
  - intros Hsel. eexists. split; [apply EndPlay_unselected; exact Hsel |].
    split; [apply events_since_app; reflexivity | reflexivity].
  - intros Hname Hops. cbn [run step] in Hrun.
    erewrite bind_Some in Hrun by (apply BeginPlay_unselected; exact Hname).
    rewrite run_unselected in Hrun by (reflexivity || exact Hops).
    injection Hrun as <- <-. split; [reflexivity |].
    erewrite events_since_app by (cbn [trace]; rewrite <- app_assoc; reflexivity).
    cbn [app forallb is_create is_stop negb andb].
    induction ops as [|o ops IH]; [reflexivity |].
    cbn [forallb] in Hops. apply andb_true_iff in Hops as [_ Hops].
    destruct o; cbn; apply IH; exact Hops.
Qed.

Lemma stops_only_reach_live_or_null_handles_witness :
  exists p g,
    run (OpBeginPlay "FlightMap" ::
         replicate 11 sample_tick ++
         [OpTick sample_dt sample_crash_feed; sample_tick; OpEndPlay; OpEndPlay])
      sample_pawn initial_globals = Some (p, g) /\
    stops_ok (dom (workers initial_globals)) (events_since initial_globals g) = true /\
    (_mapSelected p = false ->
     exists g', EndPlay p g = Some (p, g') /\
                events_since g g' = [EvSuperEndPlay] /\ workers g' = workers g) /\
    (FString.Contains "FlightMap" "Untitled" = true ->
     forallb (fun o => negb (is_BeginPlay o))
       (replicate 11 sample_tick ++
        [OpTick sample_dt sample_crash_feed; sample_tick; OpEndPlay; OpEndPlay]) = true ->
     _mapSelected p = false /\
     forallb (fun e => negb (is_create e) && negb (is_stop e))
       (events_since initial_globals g) = true).
Proof.
  do 2 eexists. split; [vm_compute; reflexivity |].
  eapply (stops_only_reach_live_or_null_handles "FlightMap" sample_pawn initial_globals
            (replicate 11 sample_tick ++
             [OpTick sample_dt sample_crash_feed; sample_tick; OpEndPlay; OpEndPlay])).
  - exact wf_initial.
  - vm_compute. reflexivity.
Defined.

(** The stops of that execution, as the trace has them: the crash stops
    workers 0 and 1, the first teardown stops their replacements 2 and 3, the
    second teardown finds both handles null. *)
Example sample_teardown_stops :
  exists p g,
    run (OpBeginPlay "FlightMap" ::
         replicate 11 sample_tick ++
         [OpTick sample_dt sample_crash_feed; sample_tick; OpEndPlay; OpEndPlay])
      sample_pawn initial_globals = Some (p, g) /\
    List.filter is_stop (trace g) =
      [EvStop (ptr 0%nat); EvStop (ptr 1%nat); EvStop (ptr 2%nat); EvStop (ptr 3%nat);
       EvStop nullptr; EvStop nullptr] /\
    _flightManager p = nullptr /\ _videoManager p = nullptr.
Proof.
  do 2 eexists. split; [vm_compute; reflexivity |]. repeat split.
Qed.

(* ===================================================================== *)
(** ** A running pawn keeps running *)
(* ===================================================================== *)

(** A tick stores nothing in [_propMeshes]. *)
Lemma Tick_propMeshes dt feed p g p' g' :
  Tick dt feed p g = Some (p', g') -> _propMeshes p' = _propMeshes p.
Proof.
  intros H. apply Tick_inv in H as [(_ & -> & _) | [(_ & _ & -> & _) | H]]; try reflexivity.
  destruct H as (_ & _ & p1 & g1 & Hk & _ & _ & _ & _ & rot & ->).
  destruct (getKinematics_inv _ _ _ _ Hk) as (fm & w & Hfm & Hw).
  destruct (k_crashed (feed_kinematics feed)) eqn:Hcr.
  - rewrite (getKinematics_crashed _ _ _ _ _ Hfm Hw Hcr) in Hk. injection Hk as <- _. reflexivity.
  - rewrite (getKinematics_flying _ _ _ _ _ Hfm Hw Hcr) in Hk. injection Hk as <- _. reflexivity.
Qed.

Lemma Tick_armed dt feed p g :
  armed p g -> fed (frame p) (OpTick dt feed) ->
  exists p' g' evs,
    Tick dt feed p g = Some (p', g') /\ armed p' g' /\ frame p' = frame p /\
    count g' = wrap64 (count g + 1) /\ trace g' = trace g ++ evs /\
    length (List.filter is_read evs) = if 10 <? count g then 1%nat else 0%nat.
Proof.
  intros (Hsel & (fm & vm & Hfm & Hvm & Hlf & Hlv) & Hd & Hb) Hfed. cbn [fed] in Hfed.
  destruct (Z_le_gt_dec (count g) 10) as [Hc | Hc].
  - do 2 eexists. exists [EvSuperTick dt].
    split; [apply Tick_early; assumption |].
    split; [| split; [reflexivity | split; [reflexivity | split; [reflexivity |]]]].
    + split; [exact Hsel |]. split; [| split; [exact Hd | exact Hb]]. exists fm, vm. auto.
    + replace (10 <? count g) with false by (symmetry; apply Z.ltb_ge; exact Hc). reflexivity.
  - assert (10 < count g) as Hc' by lia.
    destruct (open_tick_effects dt feed p g fm vm Hsel Hc' Hfm Hvm Hlf Hlv Hfed Hd Hb)
      as (p' & g' & HT & Hr & _).
    destruct (step_seeded (OpTick dt feed) p g p' g' eq_refl HT) as (evs & Ht & _).
    pose proof (Tick_config _ _ _ _ _ _ HT) as (Hfr & _ & _ & _ & Hsel' & _).
    pose proof (Tick_count _ _ _ _ _ _ HT) as Hcnt. rewrite Hsel in Hcnt.
    pose proof (Tick_propMeshes _ _ _ _ _ _ HT) as Hpm.
    exists p', g', evs. split; [exact HT |].
    split; [| split; [exact Hfr | split; [exact Hcnt | split; [exact Ht |]]]].
    + apply Tick_inv in HT as [(Hs & _) | [(_ & Hle & _) | HT]]; [congruence | lia |].
      destruct HT as (_ & _ & p1 & g1 & _ & (_ & Hws & _) & Hf1 & Hv1 & (fm' & vm' & Hfm' & Hvm') & rot & ->).
      split; [congruence |].
      split; [| split; [rewrite Hfr; exact Hd | unfold props_bound in *; rewrite Hfr, Hpm; exact Hb]].
      exists fm', vm'. cbn [_flightManager _videoManager SetWorldRotation].
      rewrite Hfm' in Hf1 |- *. rewrite Hvm' in Hv1 |- *. rewrite Hws. auto.
    + rewrite (events_since_app _ _ _ Ht) in Hr. rewrite Hr.
      replace (10 <? count g) with true by (symmetry; apply Z.ltb_lt; exact Hc'). reflexivity.
Qed.

(** X1. On a running pawn (a map selected, both workers alive, a
    direction in the frame's table and a mesh in [_propMeshes] for each of the
    [nmotors] props) every tick fed a value per motor returns, crash or not,
    and leaves the pawn running; as long as the counter does not wrap, [n] such
    ticks advance it by [n] and read the kinematics on all but those that found
    it at 10 or less. *)
Theorem ticks_on_a_running_pawn_never_fail (ops : list Op) : forall (p : Pawn) (g : Globals),
  armed p g ->
  Forall (fed (frame p)) ops ->
  0 <= count g -> count g + Z.of_nat (length ops) < 2 ^ 64 ->
  exists p' g' evs,
    run ops p g = Some (p', g') /\ armed p' g' /\
    count g' = count g + Z.of_nat (length ops) /\
    trace g' = trace g ++ evs /\
    length (List.filter is_read evs) = (length ops - (11 - Z.to_nat (count g)))%nat.
Proof.
  induction ops as [|o ops IH]; intros p g Harm Hfed Hc0 Hc1.
  - exists p, g, []. split; [reflexivity |]. split; [exact Harm |].
    split; [cbn; lia |]. split; [symmetry; apply app_nil_r | reflexivity].
  - apply Forall_cons in Hfed as [Ho Hfed].
    destruct o as [name | dt feed |]; try contradiction.
    destruct (Tick_armed dt feed p g Harm Ho) as (p1 & g1 & e1 & HT & Harm1 & Hfr & Hcnt & Ht1 & Hr1).
    cbn [length] in Hc1.
    assert (count g1 = count g + 1) as Hcnt'.
    { rewrite Hcnt. unfold wrap64. apply Z.mod_small. lia. }
    rewrite <- Hfr in Hfed.
    destruct (IH p1 g1 Harm1 Hfed) as (p' & g' & e2 & Hrun & Harm' & Hc' & Ht2 & Hr2); [lia | lia |].
    exists p', g', (e1 ++ e2). split.
    { cbn [run step]. rewrite (bind_Some _ _ _ _ _ HT). exact Hrun. }
    split; [exact Harm' |]. split; [cbn [length]; lia |].
    split; [rewrite Ht2, Ht1; symmetry; apply app_assoc |].
    rewrite List.filter_app, length_app, Hr1, Hr2, Hcnt'. cbn [length].
    destruct (10 <? count g) eqn:E.
    + apply Z.ltb_lt in E. lia.
    + apply Z.ltb_ge in E. lia.
Qed.

Lemma ticks_on_a_running_pawn_never_fail_witness :
  exists p g,
    run [OpBeginPlay "FlightMap"] sample_pawn initial_globals = Some (p, g) /\
    exists p' g' evs,
      run (replicate 14 sample_tick ++ [OpTick sample_dt sample_crash_feed]) p g
        = Some (p', g') /\ armed p' g' /\
      count g' = count g +
                 Z.of_nat (length (replicate 14 sample_tick ++ [OpTick sample_dt sample_crash_feed])) /\
      trace g' = trace g ++ evs /\
      length (List.filter is_read evs) =
        (length (replicate 14 sample_tick ++ [OpTick sample_dt sample_crash_feed])
         - (11 - Z.to_nat (count g)))%nat.
Proof.
  do 2 eexists. split; [vm_compute; reflexivity |].
  apply (ticks_on_a_running_pawn_never_fail
           (replicate 14 sample_tick ++ [OpTick sample_dt sample_crash_feed])).
  - split; [reflexivity |]. split; [| split; [cbn; lia | reflexivity]].
    exists 0%nat, 1%nat. repeat split; eexists; vm_compute; reflexivity.
  - repeat constructor.
  - cbn. lia.
  - cbn. lia.
Defined.

(* ===================================================================== *)
(** ** After teardown *)
(* ===================================================================== *)

Lemma getKinematics_null k p g :
  _flightManager p = nullptr -> getKinematics k p g = None.
Proof.
  intros H. destruct (getKinematics k p g) as [r|] eqn:E; [| reflexivity].
  apply getKinematics_inv in E as (fm & w & Hfm & _). congruence.
Qed.

(** X2. [EndPlay] on a pawn with a map leaves both handles null and does
    not clear [_mapSelected]; so a later tick is harmless only while the gate
    is shut: once the counter is above 10 it calls through the null flight
    manager, which is undefined. *)
Theorem tick_after_teardown_is_undefined
    (p : Pawn) (g : Globals) (dt : F32.t) (feed : Feed) :
  _mapSelected p = true ->
  exists p' g',
    EndPlay p g = Some (p', g') /\
    _mapSelected p' = true /\ _flightManager p' = nullptr /\ _videoManager p' = nullptr /\
    count g' = count g /\
    (10 < count g -> Tick dt feed p' g' = None) /\
    (count g <= 10 ->
     exists g'', Tick dt feed p' g' = Some (p', g'') /\
                 events_since g' g'' = [EvSuperTick dt]).
Proof.
  intros Hsel. do 2 eexists. split; [apply EndPlay_selected; exact Hsel |].
  cbn [_mapSelected _flightManager _videoManager set_videoManager set_flightManager count].
  split; [exact Hsel |]. split; [reflexivity |]. split; [reflexivity |].
  split; [reflexivity |]. split.
  - intros Hc. unfold Tick. erewrite bind_Some by (apply gate_open; [exact Hsel | exact Hc]).
    apply bind_None. apply bind_None. apply getKinematics_null. reflexivity.
  - intros Hc. eexists. split; [apply Tick_early; [exact Hsel | exact Hc] |].
    apply events_since_app. reflexivity.
Qed.

Lemma tick_after_teardown_is_undefined_witness :
  exists p g,
    run (OpBeginPlay "FlightMap" :: replicate 12 sample_tick) sample_pawn initial_globals
      = Some (p, g) /\
    exists p' g',
      EndPlay p g = Some (p', g') /\
      _mapSelected p' = true /\ _flightManager p' = nullptr /\ _videoManager p' = nullptr /\
      count g' = count g /\
      (10 < count g -> Tick sample_dt sample_feed p' g' = None) /\
      (count g <= 10 ->
       exists g'', Tick sample_dt sample_feed p' g' = Some (p', g'') /\
                   events_since g' g'' = [EvSuperTick sample_dt]).
Proof.
  do 2 eexists. split; [vm_compute; reflexivity |].
  apply tick_after_teardown_is_undefined. reflexivity.
Defined.

(* ===================================================================== *)
(** ** BeginPlay on a pawn that is already running *)
(* ===================================================================== *)



(* ===================================================================== *)
(** ** Who owns which worker *)
(* ===================================================================== *)

Lemma dom_release h (ws : gmap nat Worker) :
  dom (FThreadedWorker.release h ws) = dom ws ∖ owned_by h.
Proof.
  destruct h as [|id]; cbn [FThreadedWorker.release owned_by].
  - set_solver.
  - apply dom_delete_L.
Qed.

Lemma release_lookup_other h (ws : gmap nat Worker) id :
  id ∉ owned_by h -> FThreadedWorker.release h ws !! id = ws !! id.
Proof.
  destruct h as [|a]; cbn [FThreadedWorker.release owned_by]; [reflexivity |].
  intros H. apply lookup_delete_ne. set_solver.
Qed.

(** What a tick or a teardown does to the store, seen from outside the pawn:
    the workers in [B], which the pawn holds no handle to, stay as they are,
    and besides them exactly the pawn's own are alive. *)
Lemma step_owned (B : gset nat) o p g p' g' :
  is_BeginPlay o = false -> _mapSelected p = true ->
  wf g -> dom (workers g) = B ∪ owned p -> B ## owned p ->
  step o p g = Some (p', g') ->
  wf g' /\ dom (workers g') = B ∪ owned p' /\ B ## owned p' /\
  (forall id, id ∈ B -> workers g' !! id = workers g !! id).
Proof.
  intros Hb Hsel Hwf Hdom Hdisj H.
  assert (forall id, id ∈ B -> (id < next_worker g)%nat) as HB.
  { intros id Hid. apply Hwf, elem_of_dom. rewrite Hdom. set_solver. }
  pose (R := FThreadedWorker.release (_videoManager p)
               (FThreadedWorker.release (_flightManager p) (workers g))).
  assert (dom R = B) as Hd.
  { unfold R. rewrite !dom_release, Hdom. unfold owned in *. set_solver. }
  assert (forall id, id ∈ B -> R !! id = workers g !! id) as Hkeep.
  { intros id Hid. unfold R, owned in *.
    rewrite !release_lookup_other by set_solver. reflexivity. }
  assert (forall id, is_Some (R !! id) -> (id < next_worker g)%nat) as Hlt.
  { intros id Hs. apply Hwf. eapply release_is_Some, release_is_Some. exact Hs. }
  destruct o as [name | dt feed |]; cbn [step is_BeginPlay] in *; [discriminate | |].
  - apply Tick_inv in H as [(Hs & _) | [(_ & _ & -> & ->) | H]]; [congruence | |].
    + cbn [workers]. auto.
    + destruct H as (_ & _ & p1 & g1 & Hk & (_ & Hws & Hnx & _) & _ & _ & _ & rot & ->).
      destruct (getKinematics_inv _ _ _ _ Hk) as (fm & w & Hfm & Hw).
      destruct (k_crashed (feed_kinematics feed)) eqn:Hcr.
      * rewrite (getKinematics_crashed _ _ _ _ _ Hfm Hw Hcr) in Hk. injection Hk as <- <-.
        cbn [workers next_worker] in Hws, Hnx.
        change (delete fm (workers g))
          with (FThreadedWorker.release (ptr fm) (workers g)) in Hws.
        rewrite <- Hfm in Hws. fold R in Hws.
        unfold owned.
        cbn [_flightManager _videoManager SetWorldRotation SetActorRotation SetActorLocation
             set_videoManager set_flightManager owned_by].
        split; [| split; [| split]].
        -- intros id. rewrite Hws, Hnx. apply started_wf. exact Hlt.
        -- rewrite Hws, !dom_insert_L, Hd. set_solver.
        -- intros id Hid Ho. apply HB in Hid.
           apply elem_of_union in Ho as [Ho | Ho]; apply elem_of_singleton in Ho; lia.
        -- intros id Hid. rewrite Hws. assert (Hlt' := HB id Hid).
           rewrite !lookup_insert_ne by lia. apply Hkeep. exact Hid.
      * rewrite (getKinematics_flying _ _ _ _ _ Hfm Hw Hcr) in Hk. injection Hk as <- <-.
        cbn [workers next_worker] in Hws, Hnx.
        split; [| split; [| split]].
        -- intros id. rewrite Hws, Hnx. apply Hwf.
        -- rewrite Hws. exact Hdom.
        -- exact Hdisj.
        -- intros id _. rewrite Hws. reflexivity.
  - rewrite EndPlay_selected in H by exact Hsel. injection H as <- <-.
    cbn [workers next_worker]. fold R. unfold owned. cbn [_flightManager _videoManager
      set_videoManager set_flightManager owned_by].
    split; [exact Hlt |]. split; [rewrite Hd; set_solver |].
    split; [set_solver | exact Hkeep].
Qed.

Lemma run_owned (B : gset nat) ops : forall p g p' g',
  forallb (fun o => negb (is_BeginPlay o)) ops = true -> _mapSelected p = true ->
  wf g -> dom (workers g) = B ∪ owned p -> B ## owned p ->
  run ops p g = Some (p', g') ->
  dom (workers g') = B ∪ owned p' /\ B ## owned p' /\
  (forall id, id ∈ B -> workers g' !! id = workers g !! id).
Proof.
  induction ops as [|o ops IH]; intros p g p' g' Hops Hsel Hwf Hdom Hdisj H; cbn [run] in H.
  - injection H as <- <-. auto.
  - cbn [forallb] in Hops. apply andb_true_iff in Hops as [Ho Hops].
    assert (is_BeginPlay o = false) as Hb by (destruct (is_BeginPlay o); [discriminate | reflexivity]).
    apply bind_inv in H as (p1 & g1 & Hs & H).
    destruct (step_owned B _ _ _ _ _ Hb Hsel Hwf Hdom Hdisj Hs) as (Hwf1 & Hdom1 & Hdisj1 & Hk1).
    destruct (step_config _ _ _ _ _ Hb Hs) as (_ & _ & _ & _ & Hsel1 & _).
    rewrite Hsel in Hsel1.
    destruct (IH _ _ _ _ Hops Hsel1 Hwf1 Hdom1 Hdisj1 H) as (Hdom' & Hdisj' & Hk').
    split; [exact Hdom' |]. split; [exact Hdisj' |].
    intros id Hid. rewrite Hk', Hk1 by exact Hid. reflexivity.
Qed.

(** X4. From [BeginPlay] on a selected map, through any ticks (crashes
    included) and teardowns: the live workers are exactly those that were
    alive before, each unchanged, plus the ones the pawn now holds a handle to.
    A crash restart leaks nothing, and the pawn never stops or replaces a
    worker it did not create. *)
Theorem pawn_owns_exactly_its_live_workers
    (mapName : string) (p0 : Pawn) (g0 : Globals) (ops : list Op) (p : Pawn) (g : Globals) :
  wf g0 ->
  FString.Contains mapName "Untitled" = false ->
  forallb (fun o => negb (is_BeginPlay o)) ops = true ->
  run (OpBeginPlay mapName :: ops) p0 g0 = Some (p, g) ->
  dom (workers g) = dom (workers g0) ∪ owned p /\
  dom (workers g0) ## owned p /\
  (forall id w, workers g0 !! id = Some w -> workers g !! id = Some w).
Proof.
  intros Hwf Hname Hops Hrun.
  cbn [run step] in Hrun. apply bind_inv in Hrun as (p1 & g1 & Hb & Hr).
  destruct (BeginPlay_handles _ _ _ _ _ Hwf Hb) as [[Hwf1 _] _].
  rewrite BeginPlay_selected in Hb by exact Hname. injection Hb as <- <-.
  assert (forall id, id ∈ dom (workers g0) -> (id < next_worker g0)%nat) as HB.
  { intros id Hid. apply Hwf, elem_of_dom. exact Hid. }
  eapply (run_owned (dom (workers g0))) in Hr; try assumption; try reflexivity.
  - destruct Hr as (Hdom & Hdisj & Hkeep). split; [exact Hdom |]. split; [exact Hdisj |].
    intros id w Hw. assert (id ∈ dom (workers g0)) as Hid by (apply elem_of_dom; eauto).
    rewrite Hkeep by exact Hid. cbn [workers]. apply HB in Hid.
    rewrite !lookup_insert_ne by lia. exact Hw.
  - cbn [workers]. unfold owned. cbn [_flightManager _videoManager set_videoManager
      set_flightManager owned_by]. rewrite !dom_insert_L. set_solver.
  - unfold owned. cbn [_flightManager _videoManager set_videoManager set_flightManager owned_by].
    intros id Hid Ho. apply HB in Hid.
    apply elem_of_union in Ho as [Ho | Ho]; apply elem_of_singleton in Ho; lia.
Qed.

Lemma pawn_owns_exactly_its_live_workers_witness :
  exists p g,
    run (OpBeginPlay "FlightMap" ::
         replicate 11 sample_tick ++ [OpTick sample_dt sample_crash_feed; sample_tick])
      sample_pawn initial_globals = Some (p, g) /\
    dom (workers g) = dom (workers initial_globals) ∪ owned p /\
    dom (workers initial_globals) ## owned p /\
    (forall id w, workers initial_globals !! id = Some w -> workers g !! id = Some w).
Proof.
  do 2 eexists. split; [vm_compute; reflexivity |].
  eapply (pawn_owns_exactly_its_live_workers "FlightMap" sample_pawn initial_globals
            (replicate 11 sample_tick ++ [OpTick sample_dt sample_crash_feed; sample_tick])).
  - exact wf_initial.
  - reflexivity.
  - reflexivity.
  - vm_compute. reflexivity.
Defined.

(* ===================================================================== *)
(** ** A crash in the middle of a tick *)
(* ===================================================================== *)

(** X5. On a running pawn with a mesh in each prop slot, a tick that
    reads a crash goes on, in the same tick, on the two replacement workers:
    after the read it stops the old pair, creates the new pair, plays the
    effects of the snapshot it read, and then reads the gimbal and the message
    from the new flight manager and grabs the image from the new video manager;
    neither old worker is called again. *)
Theorem crashed_tick_goes_on_with_fresh_workers
    (dt : F32.t) (feed : Feed) (p : Pawn) (g : Globals) (fm vm : nat) :
  wf g ->
  _mapSelected p = true -> 10 < count g ->
  _flightManager p = ptr fm -> is_Some (workers g !! fm) ->
  _videoManager p = ptr vm -> is_Some (workers g !! vm) ->
  k_crashed (feed_kinematics feed) = true ->
  (nmotors (frame p) <= length (k_motorvals (feed_kinematics feed)))%nat ->
  (nmotors (frame p) <= length (motordirs (frame p)))%nat ->
  props_bound p = true ->
  exists p' g',
    Tick dt feed p g = Some (p', g') /\
    events_since g g' =
      [EvGetKinematics fm; EvStop (ptr fm); EvStop (ptr vm);
       EvCreate (next_worker g)
         (FlightManager (frame p) (params p) (_startLocation p) (_startRotation p));
       EvCreate (S (next_worker g))
         (VideoManager (_camera1RenderTarget p) (_camera2RenderTarget p))] ++
      animation_events (frame p) (k_motorvals (feed_kinematics feed)) (rotation g) ++
      [EvGetGimbal (next_worker g); EvGrabCurrentImage (S (next_worker g));
       EvGetMessage (next_worker g); EvDebug; EvSuperTick dt] /\
    fm <> next_worker g /\ fm <> S (next_worker g) /\
    vm <> next_worker g /\ vm <> S (next_worker g) /\
    _flightManager p' = ptr (next_worker g) /\
    _videoManager p' = ptr (S (next_worker g)).
Proof.
  intros Hwf Hsel Hc Hfm [w Hw] Hvm Hlv Hcr Hv Hd Hb.
  do 2 eexists. split; [eapply Tick_crashed; eassumption |].
  split; [apply events_since_app; rewrite Hvm; reflexivity |].
  assert (fm < next_worker g)%nat by (apply Hwf; eauto).
  assert (vm < next_worker g)%nat by (apply Hwf; exact Hlv).
  repeat split; lia.
Qed.

Lemma crashed_tick_goes_on_with_fresh_workers_witness :
  exists p' g',
    Tick sample_dt sample_crash_feed sample_running_pawn
      (sample_running_globals 11 F32.zero) = Some (p', g') /\
    events_since (sample_running_globals 11 F32.zero) g' =
      [EvGetKinematics 0%nat; EvStop (ptr 0%nat); EvStop (ptr 1%nat);
       EvCreate (next_worker (sample_running_globals 11 F32.zero))
         (FlightManager (frame sample_running_pawn) (params sample_running_pawn)
            (_startLocation sample_running_pawn) (_startRotation sample_running_pawn));
       EvCreate (S (next_worker (sample_running_globals 11 F32.zero)))
         (VideoManager (_camera1RenderTarget sample_running_pawn)
            (_camera2RenderTarget sample_running_pawn))] ++
      animation_events (frame sample_running_pawn) (k_motorvals sample_crashed) F32.zero ++
      [EvGetGimbal (next_worker (sample_running_globals 11 F32.zero));
       EvGrabCurrentImage (S (next_worker (sample_running_globals 11 F32.zero)));
       EvGetMessage (next_worker (sample_running_globals 11 F32.zero));
       EvDebug; EvSuperTick sample_dt] /\
    0%nat <> next_worker (sample_running_globals 11 F32.zero) /\
    0%nat <> S (next_worker (sample_running_globals 11 F32.zero)) /\
    1%nat <> next_worker (sample_running_globals 11 F32.zero) /\
    1%nat <> S (next_worker (sample_running_globals 11 F32.zero)) /\
    _flightManager p' = ptr (next_worker (sample_running_globals 11 F32.zero)) /\
    _videoManager p' = ptr (S (next_worker (sample_running_globals 11 F32.zero))).
Proof.
  apply (crashed_tick_goes_on_with_fresh_workers sample_dt sample_crash_feed
           sample_running_pawn (sample_running_globals 11 F32.zero) 0%nat 1%nat);
    try reflexivity.
  - intros id [w Hw]. cbn [workers next_worker sample_running_globals] in *.
    apply lookup_insert_Some in Hw as [[<- _] | [_ Hw]]; [lia |].
    apply lookup_insert_Some in Hw as [[<- _] | [_ Hw]]; [lia |].
    rewrite lookup_empty in Hw. discriminate Hw.
  - eexists. vm_compute. reflexivity.
  - eexists. vm_compute. reflexivity.
Defined.

(* ===================================================================== *)
(** ** Edges of the animation *)
(* ===================================================================== *)

(** X6. On a frame with no motors the mean is 0/0: both audio parameters
    are set to NaN, no propeller is turned, the static rotation stays. *)
Theorem no_motors_gives_NaN_audio (p : Pawn) (g : Globals) :
  nmotors (frame p) = 0%nat ->
  addAnimationEffects p g =
  Some (tt, mkGlobals (count g) (rotation g) (workers g) (next_worker g)
              (trace g ++ [EvAudioParameter "pitch" S754_nan;
                           EvAudioParameter "volume" S754_nan])).
Proof.
  intros Hn.
  rewrite addAnimationEffects_eq
    by first [rewrite Hn; lia | unfold props_bound; rewrite Hn; reflexivity].
  unfold animation_events, next_rotation, motormean. rewrite Hn. reflexivity.
Qed.

Lemma no_motors_gives_NaN_audio_witness :
  addAnimationEffects sample_bare_pawn (sample_running_globals 11 F32.zero) =
  Some (tt, mkGlobals 11 F32.zero (workers (sample_running_globals 11 F32.zero)) 2
              [EvAudioParameter "pitch" S754_nan; EvAudioParameter "volume" S754_nan]).
Proof.
  apply (no_motors_gives_NaN_audio sample_bare_pawn (sample_running_globals 11 F32.zero)).
  reflexivity.
Defined.

(** X7. On pawns with a mesh in each of their first [nmotors] prop
    slots, the effects look at the first [nmotors] motor values and the first
    [nmotors] motor directions and at nothing behind them: two such pawns that
    agree there get the same sound and the same propeller rotations. *)
Theorem animation_ignores_what_lies_behind_nmotors (p q : Pawn) (g : Globals) :
  nmotors (frame p) = nmotors (frame q) ->
  take (nmotors (frame p)) (_motorvals p) = take (nmotors (frame p)) (_motorvals q) ->
  take (nmotors (frame p)) (motordirs (frame p)) =
    take (nmotors (frame p)) (motordirs (frame q)) ->
  (nmotors (frame p) <= length (_motorvals p))%nat ->
  (nmotors (frame p) <= length (_motorvals q))%nat ->
  (nmotors (frame p) <= length (motordirs (frame p)))%nat ->
  (nmotors (frame p) <= length (motordirs (frame q)))%nat ->
  props_bound p = true -> props_bound q = true ->
  addAnimationEffects p g = addAnimationEffects q g /\
  is_Some (addAnimationEffects p g).
Proof.
  intros Hn Hv Hd Hp1 Hq1 Hp2 Hq2 Hbp Hbq.
  rewrite !addAnimationEffects_eq by (rewrite <- ?Hn; assumption).
  unfold animation_events, next_rotation, motormean. rewrite <- Hn, <- Hv, <- Hd.
  split; [reflexivity | eauto].
Qed.

Lemma animation_ignores_what_lies_behind_nmotors_witness :
  addAnimationEffects
    (set_motorvals [F32.of_Z 1; F32.of_Z 1; F32.of_Z 0; F32.of_Z 0] sample_running_pawn)
    (sample_running_globals 11 F32.zero) =
  addAnimationEffects
    (set_motorvals [F32.of_Z 1; F32.of_Z 1; F32.of_Z 0; F32.of_Z 0; F32.of_Z 9; F32.of_Z 9]
       sample_running_pawn)
    (sample_running_globals 11 F32.zero) /\
  is_Some (addAnimationEffects
             (set_motorvals [F32.of_Z 1; F32.of_Z 1; F32.of_Z 0; F32.of_Z 0] sample_running_pawn)
             (sample_running_globals 11 F32.zero)).
Proof.
  apply animation_ignores_what_lies_behind_nmotors; try reflexivity; cbn; lia.
Defined.

(** With the slots of props 2 and 4 empty and the motors running, the call
    through the second slot is undefined; with the motors at rest the loop is
    not entered and the call returns. *)
Example unset_prop_slot_is_undefined :
  addAnimationEffects sample_half_rigged_pawn (sample_running_globals 11 F32.zero) = None /\
  is_Some (addAnimationEffects
             (set_motorvals [F32.zero; F32.zero; F32.zero; F32.zero] sample_half_rigged_pawn)
             (sample_running_globals 11 F32.zero)).
Proof. split; [vm_compute; reflexivity | eexists; vm_compute; reflexivity]. Qed.

Lemma addAnimationEffects_rotation p g u g' :
  addAnimationEffects p g = Some (u, g') ->
  rotation g' = rotation g \/ rotation g' = F32.add (rotation g) (F32.of_Z 1).
Proof.
  unfold addAnimationEffects.
  destruct (sum_motorvals _ _ _ _) as [mean|]; [| discriminate].
  intros H. apply bind_inv in H as (u1 & g1 & Ha & H).
  assert (rotation g1 = rotation g) as Hr1.
  { cbv [setAudioPitchAndVolume bind emit] in Ha. injection Ha as _ <-. reflexivity. }
  destruct (F32.gtb _ _).
  - apply bind_inv in H as (r & g2 & Hg & H). injection Hg as <- <-.
    apply bind_inv in H as (u3 & g3 & Hr & H).
    injection H as _ <-. right. cbn [rotation]. rewrite Hr1. reflexivity.
  - injection H as _ <-. left. exact Hr1.
Qed.

(** X8. The static [rotation] is a [float] bumped by one: at 2^24 the bump
    rounds back to 2^24, so once the propeller animation has been stepped that
    often it never moves again, whatever the motor values. *)
Theorem propeller_rotation_stops_at_two_to_the_24
    (p : Pawn) (g : Globals) (u : unit) (g' : Globals) :
  rotation g = rotation_ceiling ->
  addAnimationEffects p g = Some (u, g') ->
  rotation g' = rotation_ceiling /\
  F32.add (F32.of_Z (2 ^ 24 - 1)) (F32.of_Z 1) = rotation_ceiling.
Proof.
  intros Hr H. split; [| vm_compute; reflexivity].
  apply addAnimationEffects_rotation in H as [-> | ->]; rewrite Hr; [reflexivity |].
  vm_compute. reflexivity.
Qed.

Lemma propeller_rotation_stops_at_two_to_the_24_witness :
  exists g',
    addAnimationEffects
      (set_motorvals [F32.of_Z 1; F32.of_Z 1; F32.of_Z 0; F32.of_Z 0] sample_running_pawn)
      (sample_running_globals 11 rotation_ceiling) = Some (tt, g') /\
    rotation g' = rotation_ceiling /\
    F32.add (F32.of_Z (2 ^ 24 - 1)) (F32.of_Z 1) = rotation_ceiling.
Proof.
  eexists. split; [vm_compute; reflexivity |].
  eapply (propeller_rotation_stops_at_two_to_the_24
            (set_motorvals [F32.of_Z 1; F32.of_Z 1; F32.of_Z 0; F32.of_Z 0] sample_running_pawn)
            (sample_running_globals 11 rotation_ceiling) tt).
  - reflexivity.
  - vm_compute. reflexivity.
Defined.

(* ===================================================================== *)
(** ** Edges of the gate *)
(* ===================================================================== *)

(** X9. The counter is a [uint64_t]. On a running pawn (map selected, both
    workers alive, a direction for each motor and a mesh in each of the first
    [nmotors] prop slots) and a snapshot with a value per motor, the tick that
    finds the counter at 2^64 - 1 still reads, and wraps it to zero, after
    which the gate is shut again for every pawn, as at the start of the
    process. *)
Theorem counter_wraps_and_shuts_the_gate_again
    (dt : F32.t) (feed : Feed) (p : Pawn) (g : Globals) :
  armed p g -> fed (frame p) (OpTick dt feed) ->
  count g = 2 ^ 64 - 1 ->
  exists p' g',
    Tick dt feed p g = Some (p', g') /\
    length (List.filter is_read (events_since g g')) = 1%nat /\
    count g' = 0 /\
    forall q dt' feed',
      exists g'', Tick dt' feed' q g' = Some (q, g'') /\
                  events_since g' g'' = [EvSuperTick dt'].
Proof.
  intros Harm Hfed Hc.
  destruct (Tick_armed dt feed p g Harm Hfed) as (p' & g' & evs & HT & _ & _ & Hcnt & Ht & Hr).
  rewrite Hc in Hcnt, Hr. change (wrap64 (2 ^ 64 - 1 + 1)) with 0 in Hcnt.
  exists p', g'. split; [exact HT |].
  split; [rewrite (events_since_app _ _ _ Ht); exact Hr |]. split; [exact Hcnt |].
  intros q dt' feed'. destruct (_mapSelected q) eqn:Hsel.
  - eexists. split; [apply Tick_early; [exact Hsel | lia] |].
    apply events_since_app. reflexivity.
  - eexists. split; [apply Tick_unselected; exact Hsel |].
    apply events_since_app. reflexivity.
Qed.

Lemma counter_wraps_and_shuts_the_gate_again_witness :
  exists p' g',
    Tick sample_dt sample_feed sample_running_pawn
      (sample_running_globals (2 ^ 64 - 1) F32.zero) = Some (p', g') /\
    length (List.filter is_read
              (events_since (sample_running_globals (2 ^ 64 - 1) F32.zero) g')) = 1%nat /\
    count g' = 0 /\
    forall q dt' feed',
      exists g'', Tick dt' feed' q g' = Some (q, g'') /\
                  events_since g' g'' = [EvSuperTick dt'].
Proof.
  apply (counter_wraps_and_shuts_the_gate_again sample_dt sample_feed sample_running_pawn
           (sample_running_globals (2 ^ 64 - 1) F32.zero)).
  - split; [reflexivity |]. split; [| split; [cbn; lia | reflexivity]].
    exists 0%nat, 1%nat. repeat split; eexists; vm_compute; reflexivity.
  - cbn. lia.
  - reflexivity.
Defined.

(** X10. Because the counter is bumped only after [_mapSelected] tested
    true, the ticks of a pawn without a map do not count: whatever ticks and
    teardowns run on such an instance, the counter, the workers and every
    instance of the scene are as before, and only the base-class calls show in
    the trace. *)
Theorem ticks_without_a_map_do_not_count
    (ops : list Op) : forall (scene : list Pawn) (g : Globals) (i : nat) (p : Pawn),
  scene !! i = Some p -> _mapSelected p = false ->
  forallb (fun o => negb (is_BeginPlay o)) ops = true ->
  run_scene (map (pair i) ops) scene g =
  Some (scene, mkGlobals (count g) (rotation g) (workers g) (next_worker g)
                 (trace g ++ map super_event ops)).
Proof.
  induction ops as [|o ops IH]; intros scene g i p Hi Hsel Hops.
  - cbn. rewrite app_nil_r. destruct g; reflexivity.
  - cbn [forallb] in Hops. apply andb_true_iff in Hops as [Ho Hops].
    cbn [map run_scene]. unfold step_at at 1. rewrite Hi.
    destruct o as [name | dt feed |]; [discriminate Ho | |]; cbn [step].
    + unfold bind at 1. unfold bind at 1. rewrite Tick_unselected by exact Hsel.
      cbn [ret]. rewrite (list_insert_id _ _ _ Hi).
      rewrite (IH _ _ _ _ Hi Hsel Hops). cbn. rewrite <- app_assoc. reflexivity.
    + unfold bind at 1. unfold bind at 1. rewrite EndPlay_unselected by exact Hsel.
      cbn [ret]. rewrite (list_insert_id _ _ _ Hi).
      rewrite (IH _ _ _ _ Hi Hsel Hops). cbn. rewrite <- app_assoc. reflexivity.
Qed.

Lemma ticks_without_a_map_do_not_count_witness :
  run_scene (map (pair 1%nat) (replicate 20 sample_tick ++ [OpEndPlay]))
    [sample_running_pawn; sample_pawn] (sample_running_globals 0 F32.zero) =
  Some ([sample_running_pawn; sample_pawn],
        mkGlobals 0 F32.zero (workers (sample_running_globals 0 F32.zero)) 2
          ([] ++ map super_event (replicate 20 sample_tick ++ [OpEndPlay]))).
Proof.
  apply (ticks_without_a_map_do_not_count (replicate 20 sample_tick ++ [OpEndPlay])
           [sample_running_pawn; sample_pawn] (sample_running_globals 0 F32.zero)
           1%nat sample_pawn); reflexivity.
Defined.

(* ===================================================================== *)
(** ** PostInitializeComponents: which mesh lands in which slot *)
(* ===================================================================== *)

Lemma fold_case_digits d :
  FString.fold_case FString.IgnoreCase (DecimalString.NilEmpty.string_of_uint d) =
  DecimalString.NilEmpty.string_of_uint d.
Proof.
  induction d; cbn [DecimalString.NilEmpty.string_of_uint FString.fold_case];
    [reflexivity | rewrite IHd; reflexivity ..].
Qed.

Lemma string_of_uint_inj d1 d2 :
  DecimalString.NilEmpty.string_of_uint d1 = DecimalString.NilEmpty.string_of_uint d2 -> d1 = d2.
Proof.
  intros H. apply (f_equal DecimalString.NilEmpty.uint_of_string) in H.
  rewrite !DecimalString.NilEmpty.usu in H. congruence.
Qed.

Lemma append_nil_l (s : string) : (EmptyString ++ s)%string = s.
Proof. reflexivity. Qed.

Lemma propname_inj i j : FString_equals (propname i) (propname j) = true -> i = j.
Proof.
  unfold FString_equals, propname. intros H. apply String.eqb_eq in H.
  injection H as H. rewrite !append_nil_l, !fold_case_digits in H. apply string_of_uint_inj in H.
  apply (f_equal Nat.of_uint) in H. rewrite !DecimalNat.Unsigned.of_to in H. lia.
Qed.

Lemma range_shift j0 n j :
  j <> j0 ->
  (S j0 <=? j)%nat && (j <? S j0 + n)%nat = (j0 <=? j)%nat && (j <? j0 + S n)%nat.
Proof.
  intros Hne. apply eq_true_iff_eq.
  rewrite !andb_true_iff, !Nat.leb_le, !Nat.ltb_lt. lia.
Qed.

Lemma range_first j0 n :
  (S j0 <=? j0)%nat && (j0 <? S j0 + n)%nat = false /\
  (j0 <=? j0)%nat && (j0 <? j0 + S n)%nat = true.
Proof.
  split.
  - apply andb_false_iff. left. apply Nat.leb_gt. lia.
  - apply andb_true_iff. split; [apply Nat.leb_le | apply Nat.ltb_lt]; lia.
Qed.

(** One component against the prop names [j0 .. j0+n-1]. *)
Lemma store_prop_lookup child : forall n j0 m r,
  store_prop child j0 n m = Some r ->
  length r = length m /\
  forall j,
    r !! j =
    if (j0 <=? j)%nat && (j <? j0 + n)%nat && FString_equals (GetName child) (propname j)
    then Some (Some child) else m !! j.
Proof.
  induction n as [|n IH]; intros j0 m r H; cbn [store_prop] in H.
  - injection H as <-. split; [reflexivity |]. intros j.
    replace ((j0 <=? j)%nat && (j <? j0 + 0)%nat) with false; [reflexivity |].
    symmetry. apply andb_false_iff.
    destruct (Nat.leb_spec j0 j); [right; apply Nat.ltb_ge; lia | left; reflexivity].
  - destruct (FString_equals (GetName child) (propname j0)) eqn:E.
    + destruct (Nat.ltb_spec j0 (length m)) as [L | L]; [| discriminate].
      apply IH in H as [Hlen Hl]. rewrite length_insert in Hlen.
      split; [exact Hlen |]. intros j. rewrite Hl.
      destruct (Nat.eq_dec j j0) as [-> | Hne].
      * destruct (range_first j0 n) as [-> ->]. rewrite E. cbn.
        apply list_lookup_insert_eq. exact L.
      * rewrite range_shift by exact Hne.
        rewrite list_lookup_insert_ne by congruence. reflexivity.
    + apply IH in H as [Hlen Hl]. split; [exact Hlen |]. intros j. rewrite Hl.
      destruct (Nat.eq_dec j j0) as [-> | Hne].
      * destruct (range_first j0 n) as [-> ->]. rewrite E. reflexivity.
      * rewrite range_shift by exact Hne. reflexivity.
Qed.

Lemma store_prop_None child : forall n j0 m,
  store_prop child j0 n m = None <->
  exists j, (j0 <= j < j0 + n)%nat /\
            FString_equals (GetName child) (propname j) = true /\ (length m <= j)%nat.
Proof.
  induction n as [|n IH]; intros j0 m; cbn [store_prop].
  - split; [discriminate | intros (j & Hj & _); lia].
  - destruct (FString_equals (GetName child) (propname j0)) eqn:E.
    + destruct (Nat.ltb_spec j0 (length m)) as [L | L].
      * rewrite IH, length_insert. split.
        -- intros (j & Hj & He & Hl). exists j. repeat split; try assumption; lia.
        -- intros (j & Hj & He & Hl). exists j. repeat split; try assumption; lia.
      * split; [| reflexivity]. intros _. exists j0. repeat split; try assumption; lia.
    + rewrite IH. split.
      * intros (j & Hj & He & Hl). exists j. repeat split; try assumption; lia.
      * intros (j & Hj & He & Hl). exists j. repeat split; try assumption; [| lia].
        destruct (Nat.eq_dec j j0) as [-> | Hne]; [congruence | lia].
Qed.

Lemma last_named_is_Some j c rest :
  is_Some (last_named j (c :: rest)) <->
  is_Some (last_named j rest) \/
  exists child, c = Some child /\ FString_equals (GetName child) (propname j) = true.
Proof.
  cbn [last_named]. destruct (last_named j rest) as [c'|].
  - split; [intros _; left; eauto | intros _; eauto].
  - destruct c as [child|].
    + destruct (FString_equals (GetName child) (propname j)) eqn:E.
      * split; [intros _; right; eauto | intros _; eauto].
      * split; [intros [x Hx]; discriminate |].
        intros [[x Hx] | (ch & [= <-] & He)]; [discriminate | congruence].
    + split; [intros [x Hx]; discriminate |].
      intros [[x Hx] | (ch & Hc & _)]; discriminate.
Qed.

(** The slots after the loop, one by one. *)
Lemma prop_slots_hold_the_slot_lemma
    (f : Frame) (staticComponents : list (option Component)) :
  forall (propMeshes r : list (option Component)),
  grab_prop_meshes f staticComponents propMeshes = Some r ->
  length r = length propMeshes /\
  forall j,
    r !! j =
    match (if (j <? nmotors f)%nat then last_named j staticComponents else None) with
    | Some child => Some (Some child)
    | None => propMeshes !! j
    end.
Proof.
  induction staticComponents as [|c rest IH]; intros m r H; cbn [grab_prop_meshes] in H.
  - injection H as <-. split; [reflexivity |]. intros j. destruct (j <? nmotors f)%nat; reflexivity.
  - destruct c as [child|].
    + destruct (store_prop child 0 (nmotors f) m) as [m'|] eqn:Hs; [| discriminate].
      apply store_prop_lookup in Hs as [Hlen' Hl']. apply IH in H as [Hlen Hl].
      split; [congruence |]. intros j. rewrite Hl, Hl'. cbn [last_named Nat.leb andb Nat.add].
      destruct (j <? nmotors f)%nat; [| reflexivity].
      destruct (last_named j rest); [reflexivity |]. cbn [andb].
      destruct (FString_equals (GetName child) (propname j)); reflexivity.
    + apply IH in H as [Hlen Hl]. split; [exact Hlen |]. intros j. rewrite Hl.
      cbn [last_named]. destruct (j <? nmotors f)%nat; [| reflexivity].
      destruct (last_named j rest); reflexivity.
Qed.

Lemma last_named_None j comps :
  last_named j comps = None ->
  forall c, In (Some c) comps -> FString_equals (GetName c) (propname j) = false.
Proof.
  induction comps as [|x rest IH]; cbn [last_named]; intros H c Hin; [destruct Hin |].
  destruct (last_named j rest) as [c'|]; [discriminate |].
  destruct Hin as [-> | Hin]; [| apply IH; [reflexivity | exact Hin]].
  destruct (FString_equals (GetName c) (propname j)); [discriminate | reflexivity].
Qed.

Lemma last_named_split j comps : forall c,
  last_named j comps = Some c ->
  exists pre post,
    comps = pre ++ Some c :: post /\
    FString_equals (GetName c) (propname j) = true /\
    forall c', In (Some c') post -> FString_equals (GetName c') (propname j) = false.
Proof.
  induction comps as [|x rest IH]; intros c; cbn [last_named]; [discriminate |].
  destruct (last_named j rest) as [c'|] eqn:E.
  - intros [= <-]. destruct (IH c' eq_refl) as (pre & post & -> & Hm & Hn).
    exists (x :: pre), post. auto.
  - destruct x as [child|]; [| discriminate].
    destruct (FString_equals (GetName child) (propname j)) eqn:Em; [| discriminate].
    intros [= <-]. exists [], rest. split; [reflexivity |]. split; [exact Em |].
    apply last_named_None. exact E.
Qed.

(** X11. When the loop of [PostInitializeComponents] returns, the array
    is as long as before; each of the first [nmotors] slots holds the last
    component of the array whose name is "Prop" followed by the slot's number
    from one (compared without regard to case), or what it held before if
    there is none; null entries are skipped and the slots from [nmotors] on are
    left alone. *)
Theorem prop_slots_hold_the_last_component_of_that_name
    (f : Frame) (staticComponents propMeshes r : list (option Component)) :
  grab_prop_meshes f staticComponents propMeshes = Some r ->
  length r = length propMeshes /\
  (forall j, (nmotors f <= j)%nat -> r !! j = propMeshes !! j) /\
  (forall j, (j < nmotors f)%nat ->
     (forall c, In (Some c) staticComponents ->
                FString_equals (GetName c) (propname j) = false) /\
     r !! j = propMeshes !! j
     \/
     exists pre child post,
       staticComponents = pre ++ Some child :: post /\
       FString_equals (GetName child) (propname j) = true /\
       (forall c, In (Some c) post -> FString_equals (GetName c) (propname j) = false) /\
       r !! j = Some (Some child)).
Proof.
  intros H.
  destruct (prop_slots_hold_the_slot_lemma f staticComponents propMeshes r H) as [Hlen Hl].
  split; [exact Hlen |]. split.
  - intros j Hj. rewrite Hl.
    destruct (Nat.ltb_spec j (nmotors f)); [lia | reflexivity].
  - intros j Hj. specialize (Hl j).
    destruct (Nat.ltb_spec j (nmotors f)); [| lia].
    destruct (last_named j staticComponents) as [child|] eqn:E.
    + right. destruct (last_named_split _ _ _ E) as (pre & post & Hs & Hm & Hn).
      exists pre, child, post. auto.
    + left. split; [apply last_named_None; exact E | exact Hl].
Qed.

Lemma prop_slots_hold_the_last_component_of_that_name_witness :
  exists r,
    grab_prop_meshes sample_frame sample_components [None; None; None; None; None] = Some r /\
    r = [Some (mkComponent 13 "Prop1"); None; Some (mkComponent 12 "prop3"); None; None] /\
    length r = length [None; None; None; None; @None Component] /\
    (forall j, (nmotors sample_frame <= j)%nat ->
               r !! j = [None; None; None; None; @None Component] !! j) /\
    (forall j, (j < nmotors sample_frame)%nat ->
       (forall c, In (Some c) sample_components ->
                  FString_equals (GetName c) (propname j) = false) /\
       r !! j = [None; None; None; None; @None Component] !! j
       \/
       exists pre child post,
         sample_components = pre ++ Some child :: post /\
         FString_equals (GetName child) (propname j) = true /\
         (forall c, In (Some c) post -> FString_equals (GetName c) (propname j) = false) /\
         r !! j = Some (Some child)).
Proof.
  eexists. split; [vm_compute; reflexivity |]. split; [reflexivity |].
  apply (prop_slots_hold_the_last_component_of_that_name sample_frame sample_components).
  vm_compute. reflexivity.
Defined.

Lemma grab_prop_meshes_None (f : Frame) (staticComponents : list (option Component)) :
  forall m,
    grab_prop_meshes f staticComponents m = None <->
    exists j, (j < nmotors f)%nat /\ (length m <= j)%nat /\
              is_Some (last_named j staticComponents).
Proof.
  induction staticComponents as [|c rest IH]; intros m; cbn [grab_prop_meshes].
  - split; [discriminate |]. intros (j & _ & _ & [x Hx]). discriminate.
  - destruct c as [child|].
    + destruct (store_prop child 0 (nmotors f) m) as [m'|] eqn:Hs.
      * pose proof (proj1 (store_prop_lookup _ _ _ _ _ Hs)) as Hlen.
        assert (~ exists j, (0 <= j < 0 + nmotors f)%nat /\
                  FString_equals (GetName child) (propname j) = true /\
                  (length m <= j)%nat) as Hno.
        { intros Hex. apply store_prop_None in Hex. congruence. }
        rewrite IH, Hlen. split.
        -- intros (j & Hj & Hl & Hsome). exists j. repeat split; try assumption.
           apply last_named_is_Some. left. exact Hsome.
        -- intros (j & Hj & Hl & Hsome). exists j. repeat split; try assumption.
           apply last_named_is_Some in Hsome as [Hsome | (ch & [= <-] & He)]; [exact Hsome |].
           exfalso. apply Hno. exists j. repeat split; try assumption; lia.
      * split; [| reflexivity]. intros _.
        apply store_prop_None in Hs as (j & Hj & He & Hl).
        exists j. repeat split; [lia | exact Hl |].
        apply last_named_is_Some. right. eauto.
    + rewrite IH. split.
      * intros (j & Hj & Hl & Hsome). exists j. repeat split; try assumption.
        apply last_named_is_Some. left. exact Hsome.
      * intros (j & Hj & Hl & Hsome). exists j. repeat split; try assumption.
        apply last_named_is_Some in Hsome as [Hsome | (ch & Hc & _)];
          [exact Hsome | discriminate].
Qed.

Lemma last_named_is_Some_iff j comps :
  is_Some (last_named j comps) <->
  exists c, In (Some c) comps /\ FString_equals (GetName c) (propname j) = true.
Proof.
  split.
  - intros [c Hc]. destruct (last_named_split _ _ _ Hc) as (pre & post & -> & Hm & _).
    exists c. split; [apply in_or_app; right; left; reflexivity | exact Hm].
  - intros (c & Hin & Hm). destruct (last_named j comps) eqn:E; [eauto |].
    rewrite (last_named_None _ _ E c Hin) in Hm. discriminate Hm.
Qed.

(** X12. The loop stores outside the array, which is undefined, exactly
    when some component is named for a prop of the frame whose slot the array
    does not have; in particular it always returns when the array has
    [nmotors] slots, and a name that fits no prop of the frame is harmless. *)
Theorem prop_store_is_out_of_bounds_iff
    (f : Frame) (staticComponents propMeshes : list (option Component)) :
  (grab_prop_meshes f staticComponents propMeshes = None <->
   exists j child,
     (j < nmotors f)%nat /\ (length propMeshes <= j)%nat /\
     In (Some child) staticComponents /\
     FString_equals (GetName child) (propname j) = true) /\
  ((nmotors f <= length propMeshes)%nat ->
   is_Some (grab_prop_meshes f staticComponents propMeshes)).
Proof.
  assert (grab_prop_meshes f staticComponents propMeshes = None <->
          exists j child,
            (j < nmotors f)%nat /\ (length propMeshes <= j)%nat /\
            In (Some child) staticComponents /\
            FString_equals (GetName child) (propname j) = true) as Hiff.
  { rewrite grab_prop_meshes_None. split.
    - intros (j & Hj & Hl & Hs). apply last_named_is_Some_iff in Hs as (c & Hin & Hm).
      exists j, c. auto.
    - intros (j & c & Hj & Hl & Hin & Hm). exists j. split; [exact Hj |]. split; [exact Hl |].
      apply last_named_is_Some_iff. eauto. }
  split; [exact Hiff |].
  intros Hlen. destruct (grab_prop_meshes f staticComponents propMeshes) eqn:E; [eauto |].
  destruct (proj1 Hiff eq_refl) as (j & c & Hj & Hl & _). lia.
Qed.

(** A component named for prop 3 and an array of two slots. *)
Example sample_prop_store_out_of_bounds :
  grab_prop_meshes sample_frame sample_components [None; None] = None.
Proof. vm_compute. reflexivity. Qed.

Lemma last_named_matches j comps : forall c,
  last_named j comps = Some c -> FString_equals (GetName c) (propname j) = true.
Proof.
  induction comps as [|x rest IH]; intros c; cbn [last_named]; [discriminate |].
  destruct (last_named j rest) as [c'|].
  - intros [= <-]. apply IH. reflexivity.
  - destruct x as [child|]; [| discriminate].
    destruct (FString_equals (GetName child) (propname j)) eqn:E; [| discriminate].
    intros [= <-]. exact E.
Qed.

(** X13. The names made by [sprintf_s] for different slots differ, also
    without regard to case, so the loop puts a component into at most one slot:
    a component the array did not hold before appears in the result at one
    index only. *)
Theorem a_component_lands_in_one_slot_only
    (f : Frame) (staticComponents propMeshes r : list (option Component))
    (child : Component) (i j : nat) :
  grab_prop_meshes f staticComponents propMeshes = Some r ->
  (forall k, propMeshes !! k <> Some (Some child)) ->
  r !! i = Some (Some child) -> r !! j = Some (Some child) ->
  i = j /\ (i < nmotors f)%nat /\
  FString_equals (GetName child) (propname i) = true.
Proof.
  intros H Hnew Hi Hj.
  destruct (prop_slots_hold_the_slot_lemma f staticComponents propMeshes r H) as [_ Hl].
  assert (forall k, r !! k = Some (Some child) ->
            (k < nmotors f)%nat /\ FString_equals (GetName child) (propname k) = true) as Hk.
  { intros k Hr. rewrite Hl in Hr. destruct (Nat.ltb_spec k (nmotors f)) as [Hlt | Hge].
    - destruct (last_named k staticComponents) as [c|] eqn:E.
      + injection Hr as ->. split; [exact Hlt |]. eapply last_named_matches. exact E.
      + exfalso. eapply Hnew. exact Hr.
    - exfalso. eapply Hnew. exact Hr. }
  destruct (Hk i Hi) as [Hlt Hei]. destruct (Hk j Hj) as [_ Hej].
  split; [| split; assumption].
  unfold FString_equals in Hei, Hej. apply String.eqb_eq in Hei, Hej.
  apply propname_inj. unfold FString_equals. apply String.eqb_eq. congruence.
Qed.

Lemma a_component_lands_in_one_slot_only_witness :
  exists r,
    grab_prop_meshes sample_frame sample_components [None; None; None; None; None] = Some r /\
    r !! 2%nat = Some (Some (mkComponent 12 "prop3")) /\
    2%nat = 2%nat /\ (2 < nmotors sample_frame)%nat /\
    FString_equals (GetName (mkComponent 12 "prop3")) (propname 2) = true.
Proof.
  eexists. split; [vm_compute; reflexivity |]. split; [reflexivity |].
  eapply (a_component_lands_in_one_slot_only sample_frame sample_components
            [None; None; None; None; None] _ (mkComponent 12 "prop3") 2 2).
  - vm_compute. reflexivity.
  - intros k. do 5 (destruct k as [|k]; [discriminate |]). discriminate.
  - reflexivity.
  - reflexivity.
Defined.

(** A pawn whose component array has a mesh named for each prop of the
    frame leaves [PostInitializeComponents] with each of the first [nmotors]
    slots set: the state the propeller animation of [Tick] relies on. *)
Lemma PostInitializeComponents_binds_props
    (staticComponents : list (option Component)) (p p' : Pawn) :
  PostInitializeComponents staticComponents p = Some p' ->
  (forall j, (j < nmotors (frame p))%nat -> is_Some (last_named j staticComponents)) ->
  frame p' = frame p /\ props_bound p' = true.
Proof.
  unfold PostInitializeComponents.
  destruct (grab_prop_meshes (frame p) staticComponents (_propMeshes p)) as [r|] eqn:H;
    [| discriminate].
  intros [= <-] Hall. split; [reflexivity |].
  destruct (prop_slots_hold_the_slot_lemma _ _ _ _ H) as [_ Hl].
  unfold props_bound. cbn [frame _propMeshes]. apply forallb_forall. intros j Hj.
  apply in_seq in Hj. rewrite Hl.
  destruct (Nat.ltb_spec j (nmotors (frame p))) as [Hlt | ?]; [| lia].
  destruct (Hall j Hlt) as [c ->]. reflexivity.
Qed.

(** The sample components lack a mesh for props 2 and 4, and the pawn
    that grabs them is left with those slots unset; with a mesh per prop the
    pawn comes out with every slot set. *)
Example PostInitializeComponents_on_the_sample_components :
  (exists p',
     PostInitializeComponents sample_components
       (set_motorvals [F32.of_Z 1; F32.of_Z 1; F32.of_Z 0; F32.of_Z 0]
          (mkPawn (frame sample_pawn) (params sample_pawn)
             (_camera1RenderTarget sample_pawn) (_camera2RenderTarget sample_pawn)
             true sample_location sample_rotation (ptr 0) (ptr 1) []
             [None; None; None; None]
             sample_location sample_rotation (mkFRotator F32.zero F32.zero F32.zero)))
       = Some p' /\
     p' = sample_half_rigged_pawn /\ props_bound p' = false) /\
  (exists p',
     PostInitializeComponents
       (sample_components ++ [Some (mkComponent 15 "Prop2"); Some (mkComponent 16 "PROP4")])
       sample_half_rigged_pawn = Some p' /\
     props_bound p' = true).
Proof.
  split.
  - eexists. split; [vm_compute; reflexivity |]. split; reflexivity.
  - eexists. split; [vm_compute; reflexivity |]. reflexivity.
Qed.
